(** * image-optimizer-lambda: the transform policy, the S3 event handler and
      the bulk driver, embedded from [src/index.ts] and
      [scripts/process-existing-images.ts]. *)

From Stdlib Require Import ZArith Lia Bool String Ascii.
From stdpp Require Import base list gmap.

Local Open Scope Z_scope.

(** ** JavaScript strings

    A JavaScript string is a sequence of UTF-16 code units; [lastIndexOf],
    [substring] and [===] all work on code units. *)

Module JS.

Definition jsstring := list Z.

(** An ASCII literal as a JavaScript string. *)
Definition js (s : string) : jsstring :=
  List.map (fun a => Z.of_N (N_of_ascii a)) (list_ascii_of_string s).

Definition len (s : jsstring) : Z := Z.of_nat (length s).

(** [a === b] on strings. *)
Fixpoint str_eqb (a b : jsstring) : bool :=
  match a, b with
  | [], [] => true
  | x :: a', y :: b' => (x =? y) && str_eqb a' b'
  | _, _ => false
  end.

Fixpoint isPrefixOf (p s : jsstring) : bool :=
  match p, s with
  | [], _ => true
  | _ :: _, [] => false
  | x :: p', y :: s' => (x =? y) && isPrefixOf p' s'
  end.

(** [s.lastIndexOf(pat)], counting from index [i] for the head of [s]: the
    greatest index at which [pat] occurs, [-1] when it occurs nowhere. *)
Fixpoint lastIndexOf_at (s pat : jsstring) (i : Z) : Z :=
  match s with
  | [] => if isPrefixOf pat [] then i else -1
  | _ :: s' =>
      let later := lastIndexOf_at s' pat (i + 1) in
      if 0 <=? later then later
      else if isPrefixOf pat s then i else -1
  end.

Definition lastIndexOf (s pat : jsstring) : Z := lastIndexOf_at s pat 0.

(** Argument clamping of [substring]: a negative bound counts as 0, a bound
    past the end as the length. *)
Definition clamp (s : jsstring) (k : Z) : Z := Z.min (Z.max k 0) (len s).

(** [s.substring(start, end)]: both bounds are clamped and swapped when
    [start > end]. *)
Definition substring (s : jsstring) (start end_ : Z) : jsstring :=
  let a := clamp s start in
  let b := clamp s end_ in
  let lo := Z.min a b in
  let hi := Z.max a b in
  take (Z.to_nat (hi - lo)) (drop (Z.to_nat lo) s).

(** [s.substring(start)]: the end defaults to the length. *)
Definition substringFrom (s : jsstring) (start : Z) : jsstring :=
  substring s start (len s).

(** The Unicode lowercase mapping of one code unit, as
    [String.prototype.toLowerCase] applies it (ECMA-262 22.1.3.28, with
    UnicodeData.txt and SpecialCasing.txt).  It is written out for the code
    units whose image contains an ASCII code unit: the letters A-Z, U+0130
    LATIN CAPITAL LETTER I WITH DOT ABOVE, which becomes the two units
    U+0069 U+0307, and U+212A KELVIN SIGN, which becomes [k].  The other
    ASCII code units are their own image.  Any other code unit outside ASCII
    is mapped by Unicode to one code unit outside ASCII (and a surrogate
    pair to a surrogate pair); it is left in place here, which changes no
    length and which no comparison with an ASCII string can tell apart. *)
Definition lowerUnit (u : Z) : list Z :=
  if (65 <=? u) && (u <=? 90) then [u + 32]
  else if u =? 304 then [105; 775]
  else if u =? 8490 then [107]
  else [u].

Definition toLowerCase (s : jsstring) : jsstring :=
  List.concat (List.map lowerUnit s).

(** [arr.includes(x)] on an array of strings. *)
Definition includes (arr : list jsstring) (x : jsstring) : bool :=
  existsb (str_eqb x) arr.

(** [str.replace(/\+/g, " ")]. *)
Definition replacePlus (s : jsstring) : jsstring :=
  List.map (fun u => if u =? 43 then 32 else u) s.

(** *** [decodeURIComponent] (ECMA-262 19.2.6.6, Decode with an empty
    reserved set)

    The input is read one code unit at a time.  [%XX] is one octet; an octet
    with leading 1 bits opens a UTF-8 sequence of that many octets, each
    written [%XX], which must encode a code point.  Anything else throws
    [URIError], here [None]. *)

Definition hexDigit (u : Z) : option Z :=
  if (48 <=? u) && (u <=? 57) then Some (u - 48)
  else if (65 <=? u) && (u <=? 70) then Some (u - 55)
  else if (97 <=? u) && (u <=? 102) then Some (u - 87)
  else None.

Definition isContinuation (b : Z) : bool := (128 <=? b) && (b <=? 191).

(** The code point of a well-formed UTF-8 sequence of two to four octets. *)
Definition utf8CodePoint (octets : list Z) : option Z :=
  match octets with
  | [b0; b1] =>
      let v := (b0 - 192) * 64 + (b1 - 128) in
      if isContinuation b1 && (128 <=? v) then Some v else None
  | [b0; b1; b2] =>
      let v := (b0 - 224) * 4096 + (b1 - 128) * 64 + (b2 - 128) in
      if isContinuation b1 && isContinuation b2 && (2048 <=? v)
         && negb ((55296 <=? v) && (v <=? 57343))
      then Some v else None
  | [b0; b1; b2; b3] =>
      let v := (b0 - 240) * 262144 + (b1 - 128) * 4096
               + (b2 - 128) * 64 + (b3 - 128) in
      if isContinuation b1 && isContinuation b2 && isContinuation b3
         && (65536 <=? v) && (v <=? 1114111)
      then Some v else None
  | _ => None
  end.

Definition utf16Encode (v : Z) : jsstring :=
  if v <? 65536 then [v]
  else [55296 + (v - 65536) / 1024; 56320 + (v - 65536) mod 1024].

(** Where the reader stands: outside an escape, after [%], after [%X], or
    between the octets of a UTF-8 sequence.  [octets] are the octets of the
    sequence read so far and [more] how many are still to come, this one
    included; both are empty and 0 for an escape that opens a sequence. *)
Inductive DecodeState :=
| Plain
| AfterPercent (octets : list Z) (more : nat)
| AfterDigit (octets : list Z) (more : nat) (d1 : Z)
| BetweenOctets (octets : list Z) (more : nat).

(** An octet [b] is complete. *)
Definition octetRead (octets : list Z) (more : nat) (b : Z)
  : option (DecodeState * jsstring) :=
  match octets with
  | [] =>
      if b <? 128 then Some (Plain, [b])
      else if b <? 192 then None
      else if b <? 224 then Some (BetweenOctets [b] 1, [])
      else if b <? 240 then Some (BetweenOctets [b] 2, [])
      else if b <? 248 then Some (BetweenOctets [b] 3, [])
      else None
  | _ :: _ =>
      match more with
      | 1%nat =>
          match utf8CodePoint (octets ++ [b]) with
          | Some v => Some (Plain, utf16Encode v)
          | None => None
          end
      | _ => Some (BetweenOctets (octets ++ [b]) (Nat.pred more), [])
      end
  end.

Definition decodeUnit (st : DecodeState) (u : Z)
  : option (DecodeState * jsstring) :=
  match st with
  | Plain => if u =? 37 then Some (AfterPercent [] 0, []) else Some (Plain, [u])
  | AfterPercent octets more =>
      match hexDigit u with
      | Some d1 => Some (AfterDigit octets more d1, [])
      | None => None
      end
  | AfterDigit octets more d1 =>
      match hexDigit u with
      | Some d2 => octetRead octets more (16 * d1 + d2)
      | None => None
      end
  | BetweenOctets octets more =>
      if u =? 37 then Some (AfterPercent octets more, []) else None
  end.

Fixpoint decodeFrom (st : DecodeState) (s : jsstring) : option jsstring :=
  match s with
  | [] => match st with Plain => Some [] | _ => None end
  | u :: s' =>
      match decodeUnit st u with
      | Some (st', out) =>
          match decodeFrom st' s' with
          | Some r => Some (out ++ r)
          | None => None
          end
      | None => None
      end
  end.

Definition decodeURIComponent (s : jsstring) : option jsstring :=
  decodeFrom Plain s.

End JS.
Import JS.

(** ** The transform policy: pure part of [src/index.ts] *)

Definition MAX_WIDTH : Z := 800.
Definition QUALITY : Z := 85.

Definition SUPPORTED_FORMATS : list jsstring :=
  [js ".jpg"; js ".jpeg"; js ".png"; js ".webp"; js ".tiff"; js ".bmp"].

Definition dot : jsstring := js ".".

Definition isSupportedImage (key : jsstring) : bool :=
  let extension := substringFrom (toLowerCase key) (lastIndexOf key dot) in
  includes SUPPORTED_FORMATS extension.

Definition generateOptimizedKey (originalKey contentType : jsstring) : jsstring :=
  let lastDotIndex := lastIndexOf originalKey dot in
  let baseName := substring originalKey 0 lastDotIndex in
  if str_eqb contentType (js "image/webp") then baseName ++ js ".webp"
  else if str_eqb contentType (js "image/png") then baseName ++ js ".png"
  else originalKey.


(** ** Exceptions and results

    A JavaScript call either returns or throws; an awaited promise either
    resolves or rejects. *)

Inductive Exn :=
| URIError                (* thrown by [decodeURIComponent] *)
| NoBody                  (* [new Error("No body in S3 response")] *)
| External (code : Z).    (* raised by the S3 client, a stream or sharp *)

Inductive result (A : Type) :=
| Ok (a : A)
| Throw (e : Exn).
Arguments Ok {A} a.
Arguments Throw {A} e.

Definition isOk {A} (r : result A) : bool :=
  match r with Ok _ => true | Throw _ => false end.

(** ** sharp

    The image library is outside the repository.  Its answers are part of
    the [World] below; the request the program builds is modelled here. *)

Definition Buffer := list Z.

Record Metadata := {
  format : option jsstring;
  width : option Z;
  height : option Z;
  hasAlpha : option bool
}.

Inductive Fit := Cover | Contain | Fill | Inside | Outside.

Record ResizeOptions := {
  resizeWidth : option Z;
  resizeHeight : option Z;
  fit : Fit;
  withoutEnlargement : bool
}.

Inductive OutputOptions :=
| Png (quality compressionLevel : Z)
| Webp (quality effort : Z).

(** [sharp(buffer).resize(...).png(...)] or [.webp(...)], before [toBuffer]. *)
Record Pipeline := {
  input : Buffer;
  resizing : ResizeOptions;
  output : OutputOptions
}.

(** ** The world outside the program

    What the storage service and sharp answer in one run, and how the
    runtime formats numbers and dates.  A request is told apart by the
    worker that makes it ([nat]: the index of the event record, or of the
    listed image) and by its own content, so the world may answer the same
    request differently at different times of the run. *)

Definition MetadataMap := gmap jsstring jsstring.

Record GetObjectOutput := {
  Body : option (result Buffer);   (* the stream, by what [streamToBuffer] makes of it *)
  GetMetadata : option MetadataMap
}.

Record PutObjectInput := {
  PutBucket : jsstring;
  PutKey : jsstring;
  PutBody : Buffer;
  ContentType : jsstring;
  PutMetadata : MetadataMap;
  CacheControl : jsstring
}.

Record CopyObjectInput := {
  CopyBucket : jsstring;
  CopyKey : jsstring;
  CopySource : jsstring;
  MetadataDirective : jsstring;
  CopyMetadata : MetadataMap
}.

Record S3Object := { Key : option jsstring }.

Record World := {
  OPTIMIZED_BUCKET : jsstring;
  SOURCE_BUCKET : jsstring;
  sendGetObject : nat -> jsstring -> jsstring -> result GetObjectOutput;
  sendPutObject : nat -> PutObjectInput -> result unit;
  sendCopyObject : nat -> CopyObjectInput -> result unit;
  (* the [Contents] of the successive pages of [ListObjectsV2] *)
  listedPages : jsstring -> list (option (list S3Object));
  sharpMetadata : Buffer -> result Metadata;
  sharpToBuffer : Pipeline -> result Buffer;
  numberToString : Z -> jsstring;                 (* [n.toString()] *)
  percentToFixed : Z -> Z -> nat -> jsstring;     (* [((a / b) * 100).toFixed(d)] *)
  nowISOString : nat -> jsstring                  (* [new Date().toISOString()] *)
}.

(** ** [optimizeImage] *)

Record OptimizedImageResult := {
  buffer : Buffer;
  contentType : jsstring;
  size : Z
}.

(** [image.resize(MAX_WIDTH, null, { fit: "inside", withoutEnlargement: true })] *)
Definition resizeRequest : ResizeOptions :=
  {| resizeWidth := Some MAX_WIDTH;
     resizeHeight := None;
     fit := Inside;
     withoutEnlargement := true |}.

Definition formatIs (m : Metadata) (f : jsstring) : bool :=
  match format m with Some g => str_eqb g f | None => false end.

Definition truthy (b : option bool) : bool :=
  match b with Some true => true | _ => false end.

(** The [catch] of [optimizeImage] logs and throws the error again, so an
    error of sharp is the function's own. *)
Definition optimizeImage (W : World) (buffer0 : Buffer) (originalKey : jsstring)
  : result OptimizedImageResult :=
  match sharpMetadata W buffer0 with
  | Throw e => Throw e
  | Ok metadata =>
      let processedImage := Build_Pipeline buffer0 resizeRequest in
      if formatIs metadata (js "png") && truthy (hasAlpha metadata) then
        match sharpToBuffer W (processedImage (Png QUALITY 9)) with
        | Throw e => Throw e
        | Ok outputBuffer =>
            Ok {| buffer := outputBuffer;
                  contentType := js "image/png";
                  size := len outputBuffer |}
        end
      else
        match sharpToBuffer W (processedImage (Webp QUALITY 6)) with
        | Throw e => Throw e
        | Ok outputBuffer =>
            Ok {| buffer := outputBuffer;
                  contentType := js "image/webp";
                  size := len outputBuffer |}
        end
  end.

(** The metadata both callers store with the optimized image: the source
    object's own entries, then the entries written over them. *)
Definition storedMetadata (W : World) (i : nat) (sourceMeta : option MetadataMap)
    (originalBuffer : Buffer) (optimized : OptimizedImageResult) : MetadataMap :=
  <[js "processed-at" := nowISOString W i]>
  (<[js "compression-ratio" :=
       percentToFixed W (size optimized) (len originalBuffer) 2]>
  (<[js "optimized-size" := numberToString W (size optimized)]>
  (<[js "original-size" := numberToString W (len originalBuffer)]>
  (default ∅ sourceMeta)))).

(** ** The event handler: [handler] of [src/index.ts]

    [event.Records.map(async (record) => ...)] starts one asynchronous
    function per record; each runs up to its first [await] at once, in
    order.  From then on the event loop resumes them one at a time, in the
    order in which the awaited operations complete. *)

Record S3Record := {
  bucketName : jsstring;     (* [record.s3.bucket.name] *)
  objectKey : jsstring       (* [record.s3.object.key] *)
}.

(** Where the asynchronous function of one record stands: at which
    [await].  The two awaits inside [optimizeImage] are taken in one step. *)
Inductive Task :=
| AwaitGet (sourceBucket sourceKey : jsstring)
| AwaitStream (sourceKey : jsstring) (stream : result Buffer)
    (metadata : option MetadataMap)
| AwaitOptimize (sourceKey : jsstring) (originalBuffer : Buffer)
    (metadata : option MetadataMap)
| AwaitPut (sourceKey : jsstring) (command : PutObjectInput)
| Fulfilled
| Rejected (e : Exn).

(** The storage operations of a run, in order. *)
Inductive Event :=
| GetSent (i : nat) (bucket key : jsstring)
| PutSent (i : nat) (command : PutObjectInput)
| PutDone (i : nat).

Definition eventRecord (e : Event) : nat :=
  match e with GetSent i _ _ | PutSent i _ | PutDone i => i end.

(** The record's function from its start to its first [await]. *)
Definition startRecord (W : World) (i : nat) (record : S3Record)
  : Task * list Event :=
  let sourceBucket := bucketName record in
  match decodeURIComponent (replacePlus (objectKey record)) with
  | None => (Rejected URIError, [])
  | Some sourceKey =>
      if negb (isSupportedImage sourceKey) then (Fulfilled, [])
      else if str_eqb sourceBucket (OPTIMIZED_BUCKET W) then (Fulfilled, [])
      else (AwaitGet sourceBucket sourceKey,
            [GetSent i sourceBucket sourceKey])
  end.

Definition handlerPut (W : World) (i : nat) (sourceKey : jsstring)
    (metadata : option MetadataMap) (originalBuffer : Buffer)
    (optimized : OptimizedImageResult) : PutObjectInput :=
  {| PutBucket := OPTIMIZED_BUCKET W;
     PutKey := generateOptimizedKey sourceKey (contentType optimized);
     PutBody := buffer optimized;
     ContentType := contentType optimized;
     PutMetadata := storedMetadata W i metadata originalBuffer optimized;
     CacheControl := js "public, max-age=31536000" |}.

(** The record's function from one [await] to the next, once the awaited
    operation has completed.  Every error inside the [try] is logged and
    thrown again, which rejects the record's promise. *)
Definition resume (W : World) (i : nat) (t : Task) : Task * list Event :=
  match t with
  | AwaitGet sourceBucket sourceKey =>
      match sendGetObject W i sourceBucket sourceKey with
      | Throw e => (Rejected e, [])
      | Ok response =>
          match Body response with
          | None => (Rejected NoBody, [])
          | Some stream =>
              (AwaitStream sourceKey stream (GetMetadata response), [])
          end
      end
  | AwaitStream sourceKey stream metadata =>
      match stream with
      | Throw e => (Rejected e, [])
      | Ok originalBuffer =>
          (AwaitOptimize sourceKey originalBuffer metadata, [])
      end
  | AwaitOptimize sourceKey originalBuffer metadata =>
      match optimizeImage W originalBuffer sourceKey with
      | Throw e => (Rejected e, [])
      | Ok optimized =>
          let command :=
            handlerPut W i sourceKey metadata originalBuffer optimized in
          (AwaitPut sourceKey command, [PutSent i command])
      end
  | AwaitPut sourceKey command =>
      match sendPutObject W i command with
      | Throw e => (Rejected e, [])
      | Ok _ => (Fulfilled, [PutDone i])
      end
  | Fulfilled => (Fulfilled, [])
  | Rejected e => (Rejected e, [])
  end.

(** The promise of [Promise.all(processingPromises)], which is the
    handler's own result: it rejects with the first rejection it sees and
    resolves once every record's promise has resolved. *)
Inductive Join :=
| Pending
| Resolved
| Failed (e : Exn).

Definition isFulfilled (t : Task) : bool :=
  match t with Fulfilled => true | _ => false end.

Definition isSettled (t : Task) : bool :=
  match t with Fulfilled | Rejected _ => true | _ => false end.

Fixpoint firstRejection (ts : list Task) : option Exn :=
  match ts with
  | [] => None
  | Rejected e :: _ => Some e
  | _ :: ts' => firstRejection ts'
  end.

Record HandlerState := {
  tasks : list Task;
  join : Join;
  trace : list Event
}.

(** Every record's function is started before [Promise.all] is called. *)
Fixpoint startAll (W : World) (i : nat) (records : list S3Record)
  : list Task * list Event :=
  match records with
  | [] => ([], [])
  | record :: rest =>
      let '(t, evs) := startRecord W i record in
      let '(ts, evs') := startAll W (S i) rest in
      (t :: ts, evs ++ evs')
  end.

Definition joinOf (ts : list Task) : Join :=
  match firstRejection ts with
  | Some e => Failed e
  | None => if forallb isFulfilled ts then Resolved else Pending
  end.

Definition start (W : World) (records : list S3Record) : HandlerState :=
  let '(ts, evs) := startAll W 0 records in
  {| tasks := ts; join := joinOf ts; trace := evs |}.

(** The join after task [i] has moved to [t']. *)
Definition joinAfter (j : Join) (t' : Task) (ts' : list Task) : Join :=
  match j with
  | Pending =>
      match t' with
      | Rejected e => Failed e
      | _ => if forallb isFulfilled ts' then Resolved else Pending
      end
  | _ => j
  end.

(** The event loop resumes task [i]. *)
Definition step (W : World) (st : HandlerState) (i : nat) : HandlerState :=
  match tasks st !! i with
  | None => st
  | Some t =>
      let '(t', evs) := resume W i t in
      let ts' := <[i := t']> (tasks st) in
      {| tasks := ts';
         join := joinAfter (join st) t' ts';
         trace := trace st ++ evs |}
  end.

(** A run of the handler: the order in which the event loop resumes the
    records. *)
Definition run (W : World) (records : list S3Record) (schedule : list nat)
  : HandlerState :=
  fold_left (step W) schedule (start W records).

(** ** The bulk driver: [scripts/process-existing-images.ts] *)

Record ProcessingStats := {
  total : Z;
  processed : Z;
  skipped : Z;
  errors : Z;
  totalSizeBefore : Z;
  totalSizeAfter : Z
}.

Definition noStats : ProcessingStats :=
  {| total := 0; processed := 0; skipped := 0; errors := 0;
     totalSizeBefore := 0; totalSizeAfter := 0 |}.

Definition setTotal (n : Z) (st : ProcessingStats) : ProcessingStats :=
  {| total := n; processed := processed st; skipped := skipped st;
     errors := errors st; totalSizeBefore := totalSizeBefore st;
     totalSizeAfter := totalSizeAfter st |}.

Definition addProcessed (st : ProcessingStats) : ProcessingStats :=
  {| total := total st; processed := processed st + 1; skipped := skipped st;
     errors := errors st; totalSizeBefore := totalSizeBefore st;
     totalSizeAfter := totalSizeAfter st |}.

Definition addSkipped (st : ProcessingStats) : ProcessingStats :=
  {| total := total st; processed := processed st; skipped := skipped st + 1;
     errors := errors st; totalSizeBefore := totalSizeBefore st;
     totalSizeAfter := totalSizeAfter st |}.

Definition addError (st : ProcessingStats) : ProcessingStats :=
  {| total := total st; processed := processed st; skipped := skipped st;
     errors := errors st + 1; totalSizeBefore := totalSizeBefore st;
     totalSizeAfter := totalSizeAfter st |}.

Definition addSizeBefore (n : Z) (st : ProcessingStats) : ProcessingStats :=
  {| total := total st; processed := processed st; skipped := skipped st;
     errors := errors st; totalSizeBefore := totalSizeBefore st + n;
     totalSizeAfter := totalSizeAfter st |}.

Definition addSizeAfter (n : Z) (st : ProcessingStats) : ProcessingStats :=
  {| total := total st; processed := processed st; skipped := skipped st;
     errors := errors st; totalSizeBefore := totalSizeBefore st;
     totalSizeAfter := totalSizeAfter st + n |}.

(** What a run does, in order. *)
Inductive DriverEvent :=
| Probed (id : nat) (key : jsstring)          (* a fetch from the optimized bucket *)
| SkippedItem (id : nat) (key : jsstring)
| ProcessingItem (id : nat) (key : jsstring)  (* handed to a processing function *)
| Fetched (id : nat) (key : jsstring)
| Stored (id : nat) (command : PutObjectInput)
| Copied (id : nat) (command : CopyObjectInput)
| Delayed (ms : Z).                           (* the [setTimeout] between batches *)

(** The one [stats] object every worker updates, the number of workers
    started so far, and the journal of the run. *)
Record RunState := {
  stats : ProcessingStats;
  started : nat;
  journal : list DriverEvent
}.

(** *** State and exceptions

    A computation changes the run state and returns or throws; what it did
    to the state before it threw stays done. *)
Definition M (A : Type) : Type := RunState -> result A * RunState.

Definition ret {A} (a : A) : M A := fun s => (Ok a, s).

Definition bind {A B} (m : M A) (k : A -> M B) : M B :=
  fun s =>
    match m s with
    | (Ok a, s') => k a s'
    | (Throw e, s') => (Throw e, s')
    end.

Definition throw {A} (e : Exn) : M A := fun s => (Throw e, s).

Definition tryCatch {A} (body : M A) (handler : Exn -> M A) : M A :=
  fun s =>
    match body s with
    | (Ok a, s') => (Ok a, s')
    | (Throw e, s') => handler e s'
    end.

Definition await {A} (r : result A) : M A := fun s => (r, s).

Definition emit (e : DriverEvent) : M unit :=
  fun s => (Ok tt, {| stats := stats s; started := started s;
                      journal := journal s ++ [e] |}).

Definition updateStats (f : ProcessingStats -> ProcessingStats) : M unit :=
  fun s => (Ok tt, {| stats := f (stats s); started := started s;
                      journal := journal s |}).

(** The number of the next worker. *)
Definition newWorker : M nat :=
  fun s => (Ok (started s), {| stats := stats s; started := S (started s);
                               journal := journal s |}).

Notation "x <- c1 ;; c2" := (bind c1 (fun x => c2))
  (at level 100, c1 at next level, right associativity).
Notation "c1 ;; c2" := (bind c1 (fun _ => c2))
  (at level 100, right associativity).

(** *** [optimizedVersionExists] *)

(** The [for] loop over [checkKeys]: the first fetch that succeeds answers
    [true]; a failed fetch moves on to the next key. *)
Fixpoint probeKeys (W : World) (id : nat) (checkKeys : list jsstring) : M bool :=
  match checkKeys with
  | [] => ret false
  | key :: rest =>
      found <- tryCatch
                 (emit (Probed id key) ;;
                  _ <- await (sendGetObject W id (OPTIMIZED_BUCKET W) key) ;;
                  ret true)
                 (fun _ => ret false) ;;
      if found : bool then ret true else probeKeys W id rest
  end.

Definition optimizedVersionExists (W : World) (id : nat) (originalKey : jsstring)
  : M bool :=
  tryCatch
    (let webpKey := generateOptimizedKey originalKey (js "image/webp") in
     let pngKey := generateOptimizedKey originalKey (js "image/png") in
     let checkKeys := [webpKey; pngKey] in
     probeKeys W id checkKeys)
    (fun _ => ret false).

(** *** [processImageDirect] *)

Definition directPut (W : World) (id : nat) (key : jsstring)
    (metadata : option MetadataMap) (originalBuffer : Buffer)
    (optimized : OptimizedImageResult) : PutObjectInput :=
  {| PutBucket := OPTIMIZED_BUCKET W;
     PutKey := generateOptimizedKey key (contentType optimized);
     PutBody := buffer optimized;
     ContentType := contentType optimized;
     PutMetadata :=
       <[js "processed-by" := js "batch-processor"]>
         (storedMetadata W id metadata originalBuffer optimized);
     CacheControl := js "public, max-age=31536000" |}.

Definition processImageDirect (W : World) (id : nat) (key : jsstring) : M unit :=
  tryCatch
    (emit (ProcessingItem id key) ;;
     emit (Fetched id key) ;;
     response <- await (sendGetObject W id (SOURCE_BUCKET W) key) ;;
     match Body response with
     | None => throw NoBody
     | Some stream =>
         originalBuffer <- await stream ;;
         updateStats (addSizeBefore (len originalBuffer)) ;;
         optimized <- await (optimizeImage W originalBuffer key) ;;
         updateStats (addSizeAfter (size optimized)) ;;
         let command :=
           directPut W id key (GetMetadata response) originalBuffer optimized in
         emit (Stored id command) ;;
         await (sendPutObject W id command) ;;
         updateStats addProcessed
     end)
    (fun _ => updateStats addError).

(** *** [processImageViaLambda] *)

Definition copyCommand (W : World) (id : nat) (key : jsstring) : CopyObjectInput :=
  {| CopyBucket := SOURCE_BUCKET W;
     CopyKey := key;
     CopySource := SOURCE_BUCKET W ++ js "/" ++ key;
     MetadataDirective := js "REPLACE";
     CopyMetadata :=
       <[js "trigger" := js "batch-processor"]>
         (<[js "reprocessed-at" := nowISOString W id]> ∅) |}.

Definition processImageViaLambda (W : World) (id : nat) (key : jsstring) : M unit :=
  tryCatch
    (emit (ProcessingItem id key) ;;
     emit (Copied id (copyCommand W id key)) ;;
     await (sendCopyObject W id (copyCommand W id key)) ;;
     updateStats addProcessed)
    (fun _ => updateStats addError).

(** *** [listAllImages]

    The pages are the ones the listing returned up to the first page without
    a continuation token. *)
Definition listedImage (obj : S3Object) : option jsstring :=
  match Key obj with
  | Some key =>
      if negb (str_eqb key []) && isSupportedImage key then Some key else None
  | None => None
  end.

Definition listAllImages (W : World) (prefix : jsstring) : list jsstring :=
  List.concat
    (List.map
       (fun contents : option (list S3Object) =>
          match contents with
          | Some objects => omap listedImage objects
          | None => []
          end)
       (listedPages W prefix)).

(** *** [processExistingImages] *)

Record Options := {
  prefix : option jsstring;
  skipExisting : option bool;
  useLambda : option bool;
  batchSize : option Z;
  delayBetweenBatches : option Z
}.

(** [arr.slice(start, end)]: a negative bound counts from the end. *)
Definition slice {A} (l : list A) (start end_ : Z) : list A :=
  let n := Z.of_nat (length l) in
  let relative k := if k <? 0 then Z.max (n + k) 0 else Z.min k n in
  let from := relative start in
  let to := relative end_ in
  take (Z.to_nat (to - from)) (drop (Z.to_nat from) l).

(** The function mapped over a batch. *)
Definition processItem (W : World) (skipExisting0 useLambda0 : bool)
    (key : jsstring) : M unit :=
  id <- newWorker ;;
  alreadyOptimized <-
    (if skipExisting0 then optimizedVersionExists W id key else ret false) ;;
  if alreadyOptimized : bool then
    emit (SkippedItem id key) ;;
    updateStats addSkipped
  else if useLambda0 then processImageViaLambda W id key
  else processImageDirect W id key.

(** [await Promise.all(batch.map(...))]: a worker that threw would reject
    the batch and, through it, the run.  The workers of a batch are written
    here one after the other; what each is answered is the world's to say. *)
Fixpoint processBatch (W : World) (skipExisting0 useLambda0 : bool)
    (batch : list jsstring) : M unit :=
  match batch with
  | [] => ret tt
  | key :: rest =>
      processItem W skipExisting0 useLambda0 key ;;
      processBatch W skipExisting0 useLambda0 rest
  end.

(** The [for (let i = 0; i < allImages.length; i += batchSize)] loop.  It
    need not end (a batch size of 0 never advances), so it runs on fuel, one
    unit per iteration; [None] is a run that has not ended yet. *)
Fixpoint batchLoop (W : World) (skipExisting0 useLambda0 : bool)
    (batchSize0 delayBetweenBatches0 : Z) (allImages : list jsstring)
    (fuel : nat) (i : Z) (s : RunState) : option (result unit * RunState) :=
  match fuel with
  | O => None
  | S fuel' =>
      if i <? Z.of_nat (length allImages) then
        let batch := slice allImages i (i + batchSize0) in
        let pause : M unit :=
          if (i + batchSize0 <? Z.of_nat (length allImages))
             && (0 <? delayBetweenBatches0)
          then emit (Delayed delayBetweenBatches0)
          else ret tt in
        match (processBatch W skipExisting0 useLambda0 batch ;; pause) s with
        | (Ok _, s') =>
            batchLoop W skipExisting0 useLambda0 batchSize0
              delayBetweenBatches0 allImages fuel' (i + batchSize0) s'
        | (Throw e, s') => Some (Throw e, s')
        end
      else Some (Ok tt, s)
  end.

Definition processExistingImages (W : World) (options : Options) (fuel : nat)
  : option (result unit * RunState) :=
  let prefix0 := default [] (prefix options) in
  let skipExisting0 := default true (skipExisting options) in
  let useLambda0 := default false (useLambda options) in
  let batchSize0 := default 10 (batchSize options) in
  let delayBetweenBatches0 := default 1000 (delayBetweenBatches options) in
  let allImages := listAllImages W prefix0 in
  let s0 := {| stats := setTotal (Z.of_nat (length allImages)) noStats;
               started := 0;
               journal := [] |} in
  batchLoop W skipExisting0 useLambda0 batchSize0 delayBetweenBatches0
    allImages fuel 0 s0.

(** [scripts/quick-process.ts] *)
Definition quickProcessOptions : Options :=
  {| prefix := None;
     skipExisting := Some true;
     useLambda := Some false;
     batchSize := Some 5;
     delayBetweenBatches := Some 500 |}.

Definition countDelays (j : list DriverEvent) : Z :=
  Z.of_nat (length (List.filter
    (fun e => match e with Delayed _ => true | _ => false end) j)).

(** The delays of a run that has ended without throwing. *)
Definition delaysOfRun (o : option (result unit * RunState)) : option Z :=
  match o with
  | Some (Ok _, s) => Some (countDelays (journal s))
  | _ => None
  end.

Definition countProcessing (j : list DriverEvent) : Z :=
  Z.of_nat (length (List.filter
    (fun e => match e with ProcessingItem _ _ => true | _ => false end) j)).

(** ** Words of the specification

    The base name and the trailing extension of a key, the ceiling of a
    quotient, and what a run's counters are compared with. *)

Definition baseName (key : jsstring) : jsstring :=
  substring key 0 (lastIndexOf key dot).

Definition trailingExtension (key : jsstring) : jsstring :=
  substringFrom key (lastIndexOf key dot).

(** [Math.ceil(a / b)] for integers with [0 < b]. *)
Definition ceilDiv (a b : Z) : Z := - ((- a) / b).

(** An optimized version of the image exists: one of the two fetches from
    the optimized bucket succeeds. *)
Definition alreadyOptimized (W : World) (id : nat) (key : jsstring) : bool :=
  isOk (sendGetObject W id (OPTIMIZED_BUCKET W)
          (generateOptimizedKey key (js "image/webp")))
  || isOk (sendGetObject W id (OPTIMIZED_BUCKET W)
             (generateOptimizedKey key (js "image/png"))).

(** What the [try] block of [processImageDirect] comes to. *)
Definition directOutcome (W : World) (id : nat) (key : jsstring) : result unit :=
  match sendGetObject W id (SOURCE_BUCKET W) key with
  | Throw e => Throw e
  | Ok response =>
      match Body response with
      | None => Throw NoBody
      | Some (Throw e) => Throw e
      | Some (Ok originalBuffer) =>
          match optimizeImage W originalBuffer key with
          | Throw e => Throw e
          | Ok optimized =>
              sendPutObject W id
                (directPut W id key (GetMetadata response) originalBuffer
                   optimized)
          end
      end
  end.

(** What the [try] block of [processImageViaLambda] comes to. *)
Definition lambdaOutcome (W : World) (id : nat) (key : jsstring) : result unit :=
  sendCopyObject W id (copyCommand W id key).

Definition processingRaises (W : World) (useLambda0 : bool) (id : nat)
    (key : jsstring) : bool :=
  negb (isOk (if useLambda0 then lambdaOutcome W id key
              else directOutcome W id key)).

Definition indicator (b : bool) : Z := if b then 1 else 0.

(** How many of [items], the workers numbered from [id] on, satisfy [f]. *)
Fixpoint countFrom (f : nat -> jsstring -> bool) (id : nat)
    (items : list jsstring) : Z :=
  match items with
  | [] => 0
  | key :: rest => indicator (f id key) + countFrom f (S id) rest
  end.

(** The delays a run takes from the batch that starts at index [i] on. *)
Definition delaysFrom (batchSize0 delayBetweenBatches0 len0 i : Z) : Z :=
  if (0 <? delayBetweenBatches0) && (i <? len0)
  then (len0 - i - 1) / batchSize0 else 0.

(** The request [optimizeImage] sends to sharp for a decoded image. *)
Definition encodeRequest (buffer0 : Buffer) (metadata : Metadata) : Pipeline :=
  {| input := buffer0;
     resizing := resizeRequest;
     output := if formatIs metadata (js "png") && truthy (hasAlpha metadata)
               then Png QUALITY 9 else Webp QUALITY 6 |}.

Definition chosenContentType (metadata : Metadata) : jsstring :=
  if formatIs metadata (js "png") && truthy (hasAlpha metadata)
  then js "image/png" else js "image/webp".

(** No record's promise is rejected. *)
Definition noRejection (ts : list Task) : Prop :=
  forall i e, ts !! i <> Some (Rejected e).

(** How the join stands to the records' promises: pending while none is
    rejected and some is not fulfilled, resolved when all are fulfilled,
    failed with the error of a rejected one. *)
Definition joinInv (st : HandlerState) : Prop :=
  match join st with
  | Pending => noRejection (tasks st) /\ forallb isFulfilled (tasks st) = false
  | Resolved => forallb isFulfilled (tasks st) = true
  | Failed e => exists i, tasks st !! i = Some (Rejected e)
  end.

(** Record [i] passes both guards of the handler. *)
Definition passesGuards (W : World) (record : S3Record) (sourceKey : jsstring)
  : Prop :=
  decodeURIComponent (replacePlus (objectKey record)) = Some sourceKey /\
  isSupportedImage sourceKey = true /\
  bucketName record <> OPTIMIZED_BUCKET W.

(** The item is skipped: skipping is on and an optimized version exists. *)
Definition skips (W : World) (skipExisting0 : bool) (id : nat) (key : jsstring)
  : bool :=
  skipExisting0 && alreadyOptimized W id key.

(** The item is processed and its processing raises. *)
Definition fails (W : World) (skipExisting0 useLambda0 : bool) (id : nat)
    (key : jsstring) : bool :=
  negb (skips W skipExisting0 id key) && processingRaises W useLambda0 id key.

(** The item is processed and its processing returns. *)
Definition succeeds (W : World) (skipExisting0 useLambda0 : bool) (id : nat)
    (key : jsstring) : bool :=
  negb (skips W skipExisting0 id key)
  && negb (processingRaises W useLambda0 id key).

Definition dispatched (W : World) (skipExisting0 : bool) (id : nat)
    (key : jsstring) : bool :=
  negb (skips W skipExisting0 id key).

Definition notDelay (ev : DriverEvent) : Prop :=
  forall ms, ev <> Delayed ms.

(** From state [s] to state [s']: so many workers were started, so many
    items skipped, processed, failed and handed to a processing function;
    [total] stands, and the journal has grown by events none of which is a
    delay, by at least one if an item was skipped or handed on. *)
Record Advance (s s' : RunState) (dStarted : nat)
    (dSkipped dProcessed dErrors dDispatched : Z) : Prop := {
  adv_journal :
    exists j, journal s' = journal s ++ j /\ Forall notDelay j /\
              (0 < dSkipped + dDispatched -> j <> []);
  adv_started : started s' = (started s + dStarted)%nat;
  adv_total : total (stats s') = total (stats s);
  adv_skipped : skipped (stats s') = skipped (stats s) + dSkipped;
  adv_processed : processed (stats s') = processed (stats s) + dProcessed;
  adv_errors : errors (stats s') = errors (stats s) + dErrors;
  adv_delays : countDelays (journal s') = countDelays (journal s);
  adv_dispatched :
    countProcessing (journal s') = countProcessing (journal s) + dDispatched
}.

(** ** A small world to run the program in *)

Module Demo.

(** A toy image format: the first byte is the format (1 for PNG, 2 for
    JPEG), the second says whether there is an alpha channel. *)
Definition metadataOf (b : Buffer) : result Metadata :=
  match b with
  | 1 :: alpha :: _ =>
      Ok {| format := Some (js "png"); width := Some 400; height := Some 400;
            hasAlpha := Some (alpha =? 1) |}
  | 2 :: _ :: _ =>
      Ok {| format := Some (js "jpeg"); width := Some 1600;
            height := Some 1200; hasAlpha := Some false |}
  | _ => Throw (External 1)
  end.

Definition encode (p : Pipeline) : result Buffer :=
  match output p with
  | Png _ _ => Ok (take 3 (input p))
  | Webp _ _ => Ok (take 2 (input p))
  end.

Definition bytesOf (key : jsstring) : Buffer :=
  if str_eqb key (js "logo.png") then [1; 1; 0; 0; 0; 0]
  else [2; 0; 0; 0; 0; 0; 0; 0].

(** The optimized bucket holds [done.webp]; the source bucket holds every
    key but [missing.jpg]. *)
Definition getObject (id : nat) (bucket key : jsstring) : result GetObjectOutput :=
  if str_eqb bucket (js "optimized") then
    if str_eqb key (js "done.webp")
    then Ok {| Body := Some (Ok [2; 0]); GetMetadata := None |}
    else Throw (External 404)
  else if str_eqb key (js "missing.jpg") then Throw (External 404)
  else Ok {| Body := Some (Ok (bytesOf key)); GetMetadata := None |}.

Definition object (name : string) : S3Object := {| Key := Some (js name) |}.

Definition world : World :=
  {| OPTIMIZED_BUCKET := js "optimized";
     SOURCE_BUCKET := js "uploads";
     sendGetObject := getObject;
     sendPutObject := fun _ _ => Ok tt;
     sendCopyObject := fun _ _ => Ok tt;
     listedPages := fun _ =>
       [ Some [object "a.jpg"; object "notes.txt"; object "done.png"];
         None;
         Some [object "missing.jpg"; {| Key := None |}; object "logo.png"] ];
     sharpMetadata := metadataOf;
     sharpToBuffer := encode;
     numberToString := fun _ => [];
     percentToFixed := fun _ _ _ => [];
     nowISOString := fun _ => [] |}.

Definition records : list S3Record :=
  [ {| bucketName := js "uploads"; objectKey := js "missing.jpg" |};
    {| bucketName := js "uploads"; objectKey := js "my+photo.JPG" |};
    {| bucketName := js "uploads"; objectKey := js "notes.txt" |};
    {| bucketName := js "optimized"; objectKey := js "logo.png" |} ].

(** The same world with nothing to list. *)
Definition emptyWorld : World :=
  {| OPTIMIZED_BUCKET := OPTIMIZED_BUCKET world;
     SOURCE_BUCKET := SOURCE_BUCKET world;
     sendGetObject := sendGetObject world;
     sendPutObject := sendPutObject world;
     sendCopyObject := sendCopyObject world;
     listedPages := fun _ => [Some []];
     sharpMetadata := sharpMetadata world;
     sharpToBuffer := sharpToBuffer world;
     numberToString := numberToString world;
     percentToFixed := percentToFixed world;
     nowISOString := nowISOString world |}.

Definition oneByOne : Options :=
  {| prefix := None; skipExisting := Some true; useLambda := Some false;
     batchSize := Some 1; delayBetweenBatches := Some 0 |}.

End Demo.

(** ** More of the program *)

(** *** [streamToBuffer]

    What a stream emits, in order.  The promise resolves at the first [end]
    with the chunks received so far, joined in order, and rejects at the
    first [error]; it settles once, so what the stream emits later changes
    nothing, and while the stream has emitted neither the promise is
    pending ([None]). *)
Inductive StreamEvent :=
| Data (chunk : Buffer)
| StreamError (e : Exn)
| StreamEnd.

Fixpoint streamToBufferFrom (chunks : list Buffer) (events : list StreamEvent)
  : option (result Buffer) :=
  match events with
  | [] => None
  | Data chunk :: rest => streamToBufferFrom (chunks ++ [chunk]) rest
  | StreamError e :: _ => Some (Throw e)
  | StreamEnd :: _ => Some (Ok (List.concat chunks))
  end.

Definition streamToBuffer (events : list StreamEvent) : option (result Buffer) :=
  streamToBufferFrom [] events.

(** *** [listAllImages], request by request

    The [do ... while (continuationToken)] loop: each request carries the
    token of the response before it, and the loop goes on while the token is
    truthy (present and not the empty string).  The service answers by the
    number of the request and its token; a rejected request rejects the
    listing.  The loop need not end, so it runs on fuel. *)
Record ListObjectsV2Output := {
  Contents : option (list S3Object);
  NextContinuationToken : option jsstring
}.

Definition truthyString (t : option jsstring) : bool :=
  match t with Some (_ :: _) => true | _ => false end.

Definition imageKeys (contents : option (list S3Object)) : list jsstring :=
  match contents with
  | Some objects => omap listedImage objects
  | None => []
  end.

Fixpoint listLoop (send : nat -> option jsstring -> result ListObjectsV2Output)
    (fuel : nat) (n : nat) (continuationToken : option jsstring)
    (images : list jsstring) : option (result (list jsstring)) :=
  match fuel with
  | O => None
  | S fuel' =>
      match send n continuationToken with
      | Throw e => Some (Throw e)
      | Ok response =>
          let images' := images ++ imageKeys (Contents response) in
          if truthyString (NextContinuationToken response)
          then listLoop send fuel' (S n) (NextContinuationToken response) images'
          else Some (Ok images')
      end
  end.

Definition listAllImagesBy
    (send : nat -> option jsstring -> result ListObjectsV2Output) (fuel : nat)
  : option (result (list jsstring)) :=
  listLoop send fuel 0 None [].

(** The service answers the requests from number [n] with token [token] on
    with [pages], each naming a truthy token, which the next request
    carries. *)
Fixpoint follows (send : nat -> option jsstring -> result ListObjectsV2Output)
    (n : nat) (token : option jsstring) (pages : list ListObjectsV2Output)
  : Prop :=
  match pages with
  | [] => True
  | page :: rest =>
      send n token = Ok page /\
      truthyString (NextContinuationToken page) = true /\
      follows send (S n) (NextContinuationToken page) rest
  end.

(** The token the request after [pages] carries. *)
Fixpoint lastToken (token : option jsstring) (pages : list ListObjectsV2Output)
  : option jsstring :=
  match pages with
  | [] => token
  | page :: rest => lastToken (NextContinuationToken page) rest
  end.

(** *** [processExistingImages], its listing included

    Line 256 awaits [listAllImages(prefix)] before the loop and outside any
    [try]: a rejected list request rejects the run, with the counters as
    they were initialised and nothing done; a listing that does not end
    keeps the run from ending.  [processExistingImages] above is the run
    from the moment the listing has returned the pages of the world. *)
Definition processExistingImagesBy
    (send : jsstring -> nat -> option jsstring -> result ListObjectsV2Output)
    (W : World) (options : Options) (listFuel fuel : nat)
  : option (result unit * RunState) :=
  let prefix0 := default [] (prefix options) in
  let skipExisting0 := default true (skipExisting options) in
  let useLambda0 := default false (useLambda options) in
  let batchSize0 := default 10 (batchSize options) in
  let delayBetweenBatches0 := default 1000 (delayBetweenBatches options) in
  match listAllImagesBy (send prefix0) listFuel with
  | None => None
  | Some (Throw e) =>
      Some (Throw e, {| stats := noStats; started := 0; journal := [] |})
  | Some (Ok allImages) =>
      batchLoop W skipExisting0 useLambda0 batchSize0 delayBetweenBatches0
        allImages fuel 0
        {| stats := setTotal (Z.of_nat (length allImages)) noStats;
           started := 0;
           journal := [] |}
  end.

(** *** One record of the handler, on its own *)

(** How many times the schedule resumes record [i]. *)
Fixpoint resumptions (i : nat) (schedule : list nat) : nat :=
  match schedule with
  | [] => 0
  | k :: rest => ((if Nat.eqb k i then 1 else 0) + resumptions i rest)%nat
  end.

(** The record's function resumed [n] times in a row: where it stands then,
    and the storage operations it made. *)
Fixpoint resumeN (W : World) (i : nat) (n : nat) (t : Task) : Task * list Event :=
  match n with
  | O => (t, [])
  | S n' =>
      let '(t', evs) := resume W i t in
      let '(t'', evs') := resumeN W i n' t' in
      (t'', evs ++ evs')
  end.

(** The storage operations of record [i] in a trace, in order. *)
Definition eventsOf (i : nat) (tr : list Event) : list Event :=
  List.filter (fun ev => Nat.eqb (eventRecord ev) i) tr.

(** What the [try] block of the handler comes to for a record that passes
    the guards: how its promise settles, and the operations it makes. *)
Definition recordOutcome (W : World) (i : nat) (sourceBucket sourceKey : jsstring)
  : Task * list Event :=
  let sent := GetSent i sourceBucket sourceKey in
  match sendGetObject W i sourceBucket sourceKey with
  | Throw e => (Rejected e, [sent])
  | Ok response =>
      match Body response with
      | None => (Rejected NoBody, [sent])
      | Some (Throw e) => (Rejected e, [sent])
      | Some (Ok originalBuffer) =>
          match optimizeImage W originalBuffer sourceKey with
          | Throw e => (Rejected e, [sent])
          | Ok optimized =>
              let command :=
                handlerPut W i sourceKey (GetMetadata response) originalBuffer
                  optimized in
              match sendPutObject W i command with
              | Throw e => (Rejected e, [sent; PutSent i command])
              | Ok _ => (Fulfilled, [sent; PutSent i command; PutDone i])
              end
          end
      end
  end.

(** *** One worker of the bulk driver, on its own *)

(** The worker an event belongs to; a delay belongs to the loop. *)
Definition eventWorker (ev : DriverEvent) : option nat :=
  match ev with
  | Probed id _ | SkippedItem id _ | ProcessingItem id _ | Fetched id _
  | Stored id _ | Copied id _ => Some id
  | Delayed _ => None
  end.

(** What worker [id] did in a journal, in order. *)
Definition eventsOfWorker (id : nat) (j : list DriverEvent) : list DriverEvent :=
  List.filter
    (fun ev => match eventWorker ev with
               | Some k => Nat.eqb k id
               | None => false
               end) j.

(** A journal without its delays. *)
Definition withoutDelays (j : list DriverEvent) : list DriverEvent :=
  List.filter (fun ev => match ev with Delayed _ => false | _ => true end) j.

(** The fetches of [optimizedVersionExists]: the [.webp] key, and the
    [.png] key when that fetch failed. *)
Definition probeEvents (W : World) (id : nat) (key : jsstring)
  : list DriverEvent :=
  let webpKey := generateOptimizedKey key (js "image/webp") in
  let pngKey := generateOptimizedKey key (js "image/png") in
  Probed id webpKey
  :: (if isOk (sendGetObject W id (OPTIMIZED_BUCKET W) webpKey) then []
      else [Probed id pngKey]).

(** The store of [processImageDirect], made once the image is fetched, read
    and optimized. *)
Definition storeEvents (W : World) (id : nat) (key : jsstring)
  : list DriverEvent :=
  match sendGetObject W id (SOURCE_BUCKET W) key with
  | Ok response =>
      match Body response with
      | Some (Ok originalBuffer) =>
          match optimizeImage W originalBuffer key with
          | Ok optimized =>
              [Stored id (directPut W id key (GetMetadata response)
                            originalBuffer optimized)]
          | Throw _ => []
          end
      | _ => []
      end
  | Throw _ => []
  end.

(** What the function mapped over a batch does for one key. *)
Definition workerEvents (W : World) (skipExisting0 useLambda0 : bool)
    (id : nat) (key : jsstring) : list DriverEvent :=
  (if skipExisting0 then probeEvents W id key else [])
  ++ (if skips W skipExisting0 id key then [SkippedItem id key]
      else ProcessingItem id key
           :: (if useLambda0 then [Copied id (copyCommand W id key)]
               else Fetched id key :: storeEvents W id key)).

(** The workers numbered from [id] on, one for each of [items]. *)
Fixpoint eventsFrom (W : World) (skipExisting0 useLambda0 : bool) (id : nat)
    (items : list jsstring) : list DriverEvent :=
  match items with
  | [] => []
  | key :: rest =>
      workerEvents W skipExisting0 useLambda0 id key
      ++ eventsFrom W skipExisting0 useLambda0 (S id) rest
  end.

(** *** A journal, batch by batch *)

(** The segments of a journal, one after the other, with a delay of [ms]
    after each of them but the last. *)
Fixpoint pauses (ms : Z) (segments : list (list DriverEvent))
  : list DriverEvent :=
  match segments with
  | [] => []
  | segment :: rest =>
      segment ++ match rest with
                 | [] => []
                 | _ :: _ => Delayed ms :: pauses ms rest
                 end
  end.

(** Batch number [k] of the loop, counted from 0:
    [allImages.slice(i, i + batchSize)] at [i = k * batchSize]. *)
Definition batchAt (batchSize0 : Z) (allImages : list jsstring) (k : nat)
  : list jsstring :=
  slice allImages (Z.of_nat k * batchSize0)
    (Z.of_nat k * batchSize0 + batchSize0).

(** *** A listing service in two pages, and one that fails on the second *)

Module DemoListing.

Definition firstPage : ListObjectsV2Output :=
  {| Contents := Some [Demo.object "a.jpg"; Demo.object "notes.txt"];
     NextContinuationToken := Some (js "t1") |}.

Definition lastPage : ListObjectsV2Output :=
  {| Contents := Some [{| Key := None |}; Demo.object "logo.png"];
     NextContinuationToken := None |}.

Definition send (n : nat) (token : option jsstring)
  : result ListObjectsV2Output :=
  match n, token with
  | O, None => Ok firstPage
  | S O, Some t =>
      if str_eqb t (js "t1") then Ok lastPage else Throw (External 400)
  | _, _ => Throw (External 400)
  end.

Definition broken (n : nat) (token : option jsstring)
  : result ListObjectsV2Output :=
  match n with
  | O => send n token
  | S _ => Throw (External 503)
  end.

(** The same services, for every prefix. *)
Definition sendFor (prefix0 : jsstring) := send.

Definition brokenFor (prefix0 : jsstring) := broken.

End DemoListing.

(** * Properties *)


(** ** Strings *)

Section Strings.

Implicit Types (s b e key : jsstring) (i : Z).

Lemma str_eqb_spec a c : str_eqb a c = true <-> a = c.
Proof.
  revert c; induction a as [|x a IH]; intros [|y c]; simpl; try easy.
  rewrite andb_true_iff, Z.eqb_eq, IH. split.
  - intros [-> ->]; reflexivity.
  - intros [= -> ->]; split; reflexivity.
Qed.

Lemma str_eqb_refl a : str_eqb a a = true.
Proof. apply str_eqb_spec; reflexivity. Qed.

Lemma str_eqb_neq a c : a <> c -> str_eqb a c = false.
Proof.
  intros H; destruct (str_eqb a c) eqn:E; [|reflexivity].
  apply str_eqb_spec in E; contradiction.
Qed.

Lemma len_app s1 s2 : len (s1 ++ s2) = len s1 + len s2.
Proof. unfold len; rewrite length_app; lia. Qed.

Lemma len_nonneg s : 0 <= len s.
Proof. unfold len; lia. Qed.

(** One step of the search for the last dot. *)
Lemma lastIndexOf_at_cons u s i :
  lastIndexOf_at (u :: s) dot i =
    if 0 <=? lastIndexOf_at s dot (i + 1) then lastIndexOf_at s dot (i + 1)
    else if u =? 46 then i else -1.
Proof.
  change dot with [46]; cbn [lastIndexOf_at isPrefixOf].
  rewrite andb_true_r, (Z.eqb_sym 46 u); reflexivity.
Qed.

Lemma lastIndexOf_at_no_dot s i : 46 ∉ s -> lastIndexOf_at s dot i = -1.
Proof.
  revert i; induction s as [|u s IH]; intros i Hs; [reflexivity|].
  rewrite lastIndexOf_at_cons.
  apply not_elem_of_cons in Hs as [Hu Hs].
  rewrite (IH _ Hs); simpl.
  destruct (Z.eqb_spec u 46); congruence.
Qed.

Lemma lastIndexOf_at_last_dot b e i :
  46 ∉ e -> 0 <= i -> lastIndexOf_at (b ++ 46 :: e) dot i = i + len b.
Proof.
  intros He; revert i; induction b as [|u b IH]; intros i Hi.
  - simpl app. rewrite lastIndexOf_at_cons, lastIndexOf_at_no_dot by assumption.
    simpl. unfold len; simpl; lia.
  - simpl app. rewrite lastIndexOf_at_cons, IH by lia.
    pose proof (len_nonneg b).
    destruct (Z.leb_spec 0 (i + 1 + len b)); [|lia].
    unfold len in *; simpl length; lia.
Qed.

Lemma lastIndexOf_no_dot key : 46 ∉ key -> lastIndexOf key dot = -1.
Proof. apply lastIndexOf_at_no_dot. Qed.

Lemma lastIndexOf_last_dot b e :
  46 ∉ e -> lastIndexOf (b ++ 46 :: e) dot = len b.
Proof.
  intros He; unfold lastIndexOf.
  rewrite lastIndexOf_at_last_dot by (assumption || lia); lia.
Qed.

(** A key with a dot splits at its last dot. *)
Lemma split_at_last_dot key :
  46 ∈ key -> exists b e, key = b ++ 46 :: e /\ 46 ∉ e.
Proof. apply list_elem_of_split_r. Qed.

Lemma substring_prefix b e : substring (b ++ e) 0 (len b) = b.
Proof.
  unfold substring, clamp.
  rewrite len_app.
  pose proof (len_nonneg b); pose proof (len_nonneg e).
  replace (Z.min (Z.max 0 0) (len b + len e)) with 0 by lia.
  replace (Z.min (Z.max (len b) 0) (len b + len e)) with (len b) by lia.
  replace (Z.min 0 (len b)) with 0 by lia.
  replace (Z.max 0 (len b) - 0) with (len b) by lia.
  unfold len; rewrite Nat2Z.id; simpl.
  apply take_app_length.
Qed.

Lemma substringFrom_suffix b e : substringFrom (b ++ e) (len b) = e.
Proof.
  unfold substringFrom, substring, clamp.
  rewrite len_app.
  pose proof (len_nonneg b); pose proof (len_nonneg e).
  replace (Z.min (Z.max (len b) 0) (len b + len e)) with (len b) by lia.
  replace (Z.min (Z.max (len b + len e) 0) (len b + len e))
    with (len b + len e) by lia.
  replace (Z.min (len b) (len b + len e)) with (len b) by lia.
  replace (Z.max (len b) (len b + len e) - len b) with (len e) by lia.
  unfold len; rewrite !Nat2Z.id, drop_app_length.
  apply take_ge; lia.
Qed.

Lemma substring_to_minus_one s : substring s 0 (-1) = [].
Proof.
  unfold substring, clamp. pose proof (len_nonneg s).
  replace (Z.min (Z.max 0 0) (len s)) with 0 by lia.
  replace (Z.min (Z.max (-1) 0) (len s)) with 0 by lia.
  reflexivity.
Qed.

Lemma substringFrom_minus_one s : substringFrom s (-1) = s.
Proof.
  unfold substringFrom, substring, clamp. pose proof (len_nonneg s).
  replace (Z.min (Z.max (-1) 0) (len s)) with 0 by lia.
  replace (Z.min (Z.max (len s) 0) (len s)) with (len s) by lia.
  replace (Z.min 0 (len s)) with 0 by lia.
  replace (Z.max 0 (len s) - 0) with (len s) by lia.
  unfold len; rewrite Nat2Z.id; simpl.
  apply take_ge; lia.
Qed.

(** The base name and the extension of a key that ends in [.ext]. *)
Lemma baseName_split b e : 46 ∉ e -> baseName (b ++ 46 :: e) = b.
Proof.
  intros He; unfold baseName.
  rewrite lastIndexOf_last_dot by assumption. apply substring_prefix.
Qed.

Lemma trailingExtension_split b e :
  46 ∉ e -> trailingExtension (b ++ 46 :: e) = 46 :: e.
Proof.
  intros He; unfold trailingExtension.
  rewrite lastIndexOf_last_dot by assumption. apply substringFrom_suffix.
Qed.

Lemma baseName_no_dot key : 46 ∉ key -> baseName key = [].
Proof.
  intros Hk; unfold baseName.
  rewrite lastIndexOf_no_dot by assumption. apply substring_to_minus_one.
Qed.

End Strings.

(** ** [generateOptimizedKey] *)

Lemma generateOptimizedKey_unfold key contentType0 :
  generateOptimizedKey key contentType0 =
    if str_eqb contentType0 (js "image/webp") then baseName key ++ js ".webp"
    else if str_eqb contentType0 (js "image/png") then baseName key ++ js ".png"
    else key.
Proof. reflexivity. Qed.

Lemma baseName_with_extension b (ext : string) :
  46 ∉ js ext -> baseName (b ++ js ("." ++ ext)) = b.
Proof. intros He. change (js ("." ++ ext)) with (46 :: js ext). by apply baseName_split. Qed.

(** C2, derived-key rule.  For every key that contains a dot, and so has a
    trailing extension: the key is its base name followed by that extension;
    for content type [image/webp] the derived key is the base name followed
    by [.webp], for [image/png] the base name followed by [.png], and for any
    other content type the key itself; the derived key's extension is the new
    one, and its base name is the source key's base name in every case. *)
Theorem generateOptimizedKey_replaces_extension (key : jsstring) :
  46 ∈ key ->
  key = baseName key ++ trailingExtension key /\
  generateOptimizedKey key (js "image/webp") = baseName key ++ js ".webp" /\
  generateOptimizedKey key (js "image/png") = baseName key ++ js ".png" /\
  (forall contentType0,
     contentType0 <> js "image/webp" -> contentType0 <> js "image/png" ->
     generateOptimizedKey key contentType0 = key) /\
  trailingExtension (generateOptimizedKey key (js "image/webp")) = js ".webp" /\
  trailingExtension (generateOptimizedKey key (js "image/png")) = js ".png" /\
  (forall contentType0,
     baseName (generateOptimizedKey key contentType0) = baseName key).
Proof.
  intros Hdot.
  destruct (split_at_last_dot key Hdot) as (b & e & -> & He).
  rewrite baseName_split, trailingExtension_split by assumption.
  assert (Hwebp : 46 ∉ js "webp") by compute_done.
  assert (Hpng : 46 ∉ js "png") by compute_done.
  repeat split.
  - rewrite generateOptimizedKey_unfold, baseName_split by assumption.
    reflexivity.
  - rewrite generateOptimizedKey_unfold, baseName_split by assumption.
    reflexivity.
  - intros ct Hw Hp. rewrite generateOptimizedKey_unfold.
    rewrite (str_eqb_neq _ _ Hw), (str_eqb_neq _ _ Hp); reflexivity.
  - rewrite generateOptimizedKey_unfold, baseName_split by assumption.
    simpl str_eqb; cbv iota.
    change (js ".webp") with (46 :: js "webp").
    by apply trailingExtension_split.
  - rewrite generateOptimizedKey_unfold, baseName_split by assumption.
    simpl str_eqb; cbv iota.
    change (js ".png") with (46 :: js "png").
    by apply trailingExtension_split.
  - intros ct. rewrite generateOptimizedKey_unfold.
    rewrite (baseName_split b e) by assumption.
    destruct (str_eqb ct (js "image/webp")).
    + by apply (baseName_with_extension b "webp").
    + destruct (str_eqb ct (js "image/png")).
      * by apply (baseName_with_extension b "png").
      * by apply baseName_split.
Qed.

Lemma generateOptimizedKey_replaces_extension_photo :
  46 ∈ js "photos/2024.summer/photo.JPG" /\
  generateOptimizedKey (js "photos/2024.summer/photo.JPG") (js "image/webp")
    = js "photos/2024.summer/photo.webp".
Proof.
  assert (H : 46 ∈ js "photos/2024.summer/photo.JPG") by compute_done.
  split; [exact H|].
  pose proof (generateOptimizedKey_replaces_extension _ H) as (_ & Hw & _).
  rewrite Hw. reflexivity.
Defined.

(** C10, key without a dot.  For every key that contains no dot,
    [lastIndexOf] is -1, the base name is the empty string, and the derived
    key is exactly [.webp] for content type [image/webp] and exactly [.png]
    for [image/png]: nothing of the original key is kept. *)
Theorem generateOptimizedKey_without_dot (key : jsstring) :
  46 ∉ key ->
  lastIndexOf key dot = -1 /\
  baseName key = [] /\
  generateOptimizedKey key (js "image/webp") = js ".webp" /\
  generateOptimizedKey key (js "image/png") = js ".png".
Proof.
  intros Hk. split; [by apply lastIndexOf_no_dot|].
  split; [by apply baseName_no_dot|].
  rewrite !generateOptimizedKey_unfold, baseName_no_dot by assumption.
  split; reflexivity.
Qed.

Lemma generateOptimizedKey_without_dot_README :
  (46 ∉ js "uploads/README") /\
  generateOptimizedKey (js "uploads/README") (js "image/webp") = js ".webp".
Proof.
  assert (H : 46 ∉ js "uploads/README") by compute_done.
  split; [exact H|].
  exact (proj1 (proj2 (proj2 (generateOptimizedKey_without_dot _ H)))).
Defined.

(** ** [isSupportedImage] *)

Section Supported.

Implicit Types (s b e key : jsstring).

Lemma toLowerCase_cons u s : toLowerCase (u :: s) = lowerUnit u ++ toLowerCase s.
Proof. reflexivity. Qed.

Lemma toLowerCase_app s1 s2 :
  toLowerCase (s1 ++ s2) = toLowerCase s1 ++ toLowerCase s2.
Proof.
  unfold toLowerCase. rewrite List.map_app, List.concat_app. reflexivity.
Qed.

Lemma lowerUnit_length u :
  length (lowerUnit u) = if u =? 304 then 2%nat else 1%nat.
Proof.
  unfold lowerUnit.
  destruct (Z.leb_spec 65 u), (Z.leb_spec u 90), (Z.eqb_spec u 304),
    (Z.eqb_spec u 8490); simpl; try reflexivity; lia.
Qed.

(** Lowercasing never shortens a string. *)
Lemma toLowerCase_length_ge s : (length s <= length (toLowerCase s))%nat.
Proof.
  induction s as [|u s IH]; [reflexivity|].
  rewrite toLowerCase_cons, length_app, lowerUnit_length; simpl.
  destruct (u =? 304); lia.
Qed.

(** It keeps the length of a string without U+0130 ... *)
Lemma toLowerCase_length_eq s : 304 ∉ s -> length (toLowerCase s) = length s.
Proof.
  induction s as [|u s IH]; intros Hs; [reflexivity|].
  apply not_elem_of_cons in Hs as [Hu Hs].
  rewrite toLowerCase_cons, length_app, lowerUnit_length, IH by assumption.
  destruct (Z.eqb_spec u 304); [congruence|reflexivity].
Qed.

(** ... and lengthens every other string. *)
Lemma toLowerCase_length_gt s : 304 ∈ s -> (length s < length (toLowerCase s))%nat.
Proof.
  induction s as [|u s IH]; intros Hs; [by apply elem_of_nil in Hs|].
  rewrite toLowerCase_cons, length_app, lowerUnit_length; simpl.
  pose proof (toLowerCase_length_ge s).
  destruct (Z.eqb_spec u 304) as [->|Hu]; [lia|].
  apply elem_of_cons in Hs as [Hs|Hs]; [congruence|].
  specialize (IH Hs); lia.
Qed.

Lemma substringFrom_drop s (n : nat) :
  (n <= length s)%nat -> substringFrom s (Z.of_nat n) = drop n s.
Proof.
  intros Hn. unfold substringFrom, substring, clamp, len.
  replace (Z.min (Z.max (Z.of_nat n) 0) (Z.of_nat (length s)))
    with (Z.of_nat n) by lia.
  replace (Z.min (Z.max (Z.of_nat (length s)) 0) (Z.of_nat (length s)))
    with (Z.of_nat (length s)) by lia.
  replace (Z.min (Z.of_nat n) (Z.of_nat (length s))) with (Z.of_nat n) by lia.
  rewrite Nat2Z.id.
  apply take_ge. rewrite length_drop. lia.
Qed.

Lemma includes_spec arr x : includes arr x = true <-> x ∈ arr.
Proof.
  unfold includes. rewrite existsb_exists. split.
  - intros (y & Hy & E). apply str_eqb_spec in E as ->.
    by apply list_elem_of_In.
  - intros Hx. exists x. split; [by apply list_elem_of_In|apply str_eqb_refl].
Qed.

(** Every allowed extension is a dot followed by letters. *)
Lemma SUPPORTED_FORMATS_shape x :
  x ∈ SUPPORTED_FORMATS -> exists r, x = 46 :: r /\ 46 ∉ r.
Proof.
  unfold SUPPORTED_FORMATS. rewrite !elem_of_cons, elem_of_nil.
  intros [->|[->|[->|[->|[->|[->|[]]]]]]];
    (eexists; split; [reflexivity|compute_done]).
Qed.

(** The string [isSupportedImage] looks up: the index of the last dot is
    taken in the key and applied to the lowercased key. *)
Lemma isSupportedImage_unfold key :
  isSupportedImage key =
    includes SUPPORTED_FORMATS
      (substringFrom (toLowerCase key) (lastIndexOf key dot)).
Proof. reflexivity. Qed.

Lemma lookedUp_split b e :
  46 ∉ e ->
  substringFrom (toLowerCase (b ++ 46 :: e)) (lastIndexOf (b ++ 46 :: e) dot)
  = drop (length b) (toLowerCase b) ++ toLowerCase (46 :: e).
Proof.
  intros He. rewrite lastIndexOf_last_dot by assumption.
  pose proof (toLowerCase_length_ge b).
  unfold len. rewrite substringFrom_drop, toLowerCase_app.
  - apply drop_app_le; lia.
  - rewrite toLowerCase_app, length_app; lia.
Qed.

(** What [isSupportedImage] decides, for every key: the lowercased trailing
    extension is on the allow-list and no U+0130 stands before it. *)
Theorem isSupportedImage_spec key :
  isSupportedImage key = true <->
  (304 ∉ baseName key) /\
  includes SUPPORTED_FORMATS (toLowerCase (trailingExtension key)) = true.
Proof.
  rewrite isSupportedImage_unfold.
  destruct (decide (46 ∈ key)) as [Hdot|Hdot].
  - destruct (split_at_last_dot key Hdot) as (b & e & -> & He).
    rewrite lookedUp_split, baseName_split, trailingExtension_split
      by assumption.
    split.
    + intros Hin. apply includes_spec in Hin as Hshape.
      apply SUPPORTED_FORMATS_shape in Hshape as (r & Hr & Hnodot).
      destruct (drop (length b) (toLowerCase b)) as [|u d] eqn:Hd.
      * split; [|exact Hin].
        intros H304. apply toLowerCase_length_gt in H304.
        apply (f_equal length) in Hd. rewrite length_drop in Hd.
        simpl in Hd. lia.
      * exfalso. simpl in Hr. injection Hr as -> <-.
        apply Hnodot. rewrite toLowerCase_cons.
        apply elem_of_app; right. apply elem_of_app; left.
        change (lowerUnit 46) with [46]. by apply list_elem_of_singleton.
    + intros [H304 Hin].
      rewrite drop_ge by (rewrite toLowerCase_length_eq by assumption; lia).
      exact Hin.
  - unfold trailingExtension.
    rewrite baseName_no_dot, lastIndexOf_no_dot, !substringFrom_minus_one
      by assumption.
    split; [intros H; split; [apply not_elem_of_nil|exact H]|].
    intros [_ H]; exact H.
Qed.

(** On a key whose base name has no U+0130 (every ASCII key, for one),
    [isSupportedImage] is the case-insensitive test of the trailing
    extension against the allow-list. *)
Theorem isSupportedImage_case_insensitive key :
  304 ∉ baseName key ->
  isSupportedImage key
  = includes SUPPORTED_FORMATS (toLowerCase (trailingExtension key)).
Proof.
  intros H304.
  destruct (includes SUPPORTED_FORMATS (toLowerCase (trailingExtension key)))
    eqn:E.
  - apply isSupportedImage_spec; split; assumption.
  - destruct (isSupportedImage key) eqn:E'; [|reflexivity].
    apply isSupportedImage_spec in E' as [_ E']. congruence.
Qed.

Lemma isSupportedImage_case_insensitive_photo :
  (304 ∉ baseName (js "Photo.JpEg")) /\ isSupportedImage (js "Photo.JpEg") = true.
Proof.
  assert (H : 304 ∉ baseName (js "Photo.JpEg")) by compute_done.
  split; [exact H|].
  rewrite (isSupportedImage_case_insensitive _ H). reflexivity.
Defined.

(** A key that is accepted has an allowed extension, whatever stands before
    it. *)
Theorem isSupportedImage_sound key :
  isSupportedImage key = true ->
  includes SUPPORTED_FORMATS (toLowerCase (trailingExtension key)) = true.
Proof. intros H. by apply isSupportedImage_spec in H as [_ H]. Qed.

Lemma isSupportedImage_sound_logo :
  isSupportedImage (js "icons/Logo.PNG") = true /\
  includes SUPPORTED_FORMATS
    (toLowerCase (trailingExtension (js "icons/Logo.PNG"))) = true.
Proof.
  assert (H : isSupportedImage (js "icons/Logo.PNG") = true) by reflexivity.
  split; [exact H|]. exact (isSupportedImage_sound _ H).
Defined.

(** C8, at the key [U+0130 . j p g].  Its trailing extension is [.jpg],
    which is on the allow-list, and [isSupportedImage] answers [false]:
    lowercasing turns U+0130 into two code units, so the index of the dot,
    taken in the key, falls one unit before the dot of the lowercased key,
    and the string looked up is [U+0307 . j p g]. *)
Theorem isSupportedImage_dotted_capital_I :
  trailingExtension (304 :: js ".jpg") = js ".jpg" /\
  includes SUPPORTED_FORMATS (toLowerCase (trailingExtension (304 :: js ".jpg")))
  = true /\
  substringFrom (toLowerCase (304 :: js ".jpg"))
    (lastIndexOf (304 :: js ".jpg") dot) = 775 :: js ".jpg" /\
  isSupportedImage (304 :: js ".jpg") = false.
Proof. repeat split; reflexivity. Qed.

End Supported.

(** ** [optimizeImage] *)

Section Transform.

Variable W : World.

Lemma formatIs_spec (m : Metadata) f : formatIs m f = true <-> format m = Some f.
Proof.
  unfold formatIs. destruct (format m) as [g|]; [|easy].
  rewrite str_eqb_spec. split; [by intros ->|by intros [= ->]].
Qed.

Lemma truthy_spec (b : option bool) : truthy b = true <-> b = Some true.
Proof. destruct b as [[]|]; simpl; easy. Qed.

(** [optimizeImage] on an image sharp can decode: the one request it makes,
    and the content type that goes with it. *)
Lemma optimizeImage_decoded buffer0 key metadata :
  sharpMetadata W buffer0 = Ok metadata ->
  optimizeImage W buffer0 key =
    match sharpToBuffer W (encodeRequest buffer0 metadata) with
    | Ok outputBuffer =>
        Ok {| buffer := outputBuffer;
              contentType := chosenContentType metadata;
              size := len outputBuffer |}
    | Throw e => Throw e
    end.
Proof.
  intros Hm. unfold optimizeImage, encodeRequest, chosenContentType.
  rewrite Hm.
  destruct (formatIs metadata (js "png") && truthy (hasAlpha metadata));
    reflexivity.
Qed.

(** C1, format selection.  For every image sharp decodes: when the source
    format is PNG and the image has an alpha channel, whatever
    [optimizeImage] returns has content type [image/png]; when the format is
    not PNG, or there is no alpha channel, it has content type
    [image/webp]; [optimizeImage] does return whenever sharp encodes the
    request; and no result has a content type other than these two. *)
Theorem optimizeImage_contentType (buffer0 : Buffer) (key : jsstring)
    (metadata : Metadata) :
  sharpMetadata W buffer0 = Ok metadata ->
  (format metadata = Some (js "png") /\ hasAlpha metadata = Some true ->
   forall r, optimizeImage W buffer0 key = Ok r ->
             contentType r = js "image/png") /\
  (format metadata <> Some (js "png") \/ hasAlpha metadata <> Some true ->
   forall r, optimizeImage W buffer0 key = Ok r ->
             contentType r = js "image/webp") /\
  (forall outputBuffer,
     sharpToBuffer W (encodeRequest buffer0 metadata) = Ok outputBuffer ->
     exists r, optimizeImage W buffer0 key = Ok r /\
               buffer r = outputBuffer /\
               contentType r = chosenContentType metadata) /\
  (forall r, optimizeImage W buffer0 key = Ok r ->
     contentType r = js "image/png" \/ contentType r = js "image/webp").
Proof.
  intros Hm. rewrite (optimizeImage_decoded _ key _ Hm).
  unfold chosenContentType.
  repeat split.
  - intros [Hf Ha] r.
    apply formatIs_spec in Hf. apply truthy_spec in Ha. rewrite Hf, Ha.
    destruct (sharpToBuffer W (encodeRequest buffer0 metadata));
      [|discriminate].
    by intros [= <-].
  - intros Hno r.
    assert (formatIs metadata (js "png") && truthy (hasAlpha metadata) = false)
      as ->.
    { apply andb_false_iff. destruct Hno as [Hf|Ha].
      - left. destruct (formatIs metadata (js "png")) eqn:E; [|reflexivity].
        apply formatIs_spec in E. contradiction.
      - right. destruct (truthy (hasAlpha metadata)) eqn:E; [|reflexivity].
        apply truthy_spec in E. contradiction. }
    destruct (sharpToBuffer W (encodeRequest buffer0 metadata));
      [|discriminate].
    by intros [= <-].
  - intros outputBuffer ->. eexists. repeat split.
  - intros r.
    destruct (sharpToBuffer W (encodeRequest buffer0 metadata));
      [|discriminate].
    intros [= <-]; simpl.
    destruct (formatIs metadata (js "png") && truthy (hasAlpha metadata));
      [by left|by right].
Qed.

(** Whatever the image, a result of [optimizeImage] is [image/png] or
    [image/webp], and was encoded from the resize request above. *)
Lemma optimizeImage_result buffer0 key r :
  optimizeImage W buffer0 key = Ok r ->
  exists metadata,
    sharpMetadata W buffer0 = Ok metadata /\
    sharpToBuffer W (encodeRequest buffer0 metadata) = Ok (buffer r) /\
    resizing (encodeRequest buffer0 metadata) = resizeRequest /\
    contentType r = chosenContentType metadata.
Proof.
  destruct (sharpMetadata W buffer0) as [metadata|e] eqn:Hm.
  - rewrite (optimizeImage_decoded _ key _ Hm).
    destruct (sharpToBuffer W (encodeRequest buffer0 metadata)) eqn:Hb;
      [|discriminate].
    intros [= <-]. exists metadata. repeat split. exact Hb.
  - unfold optimizeImage. rewrite Hm. discriminate.
Qed.

End Transform.

Lemma optimizeImage_contentType_logo :
  sharpMetadata Demo.world (Demo.bytesOf (js "logo.png"))
  = Ok {| format := Some (js "png"); width := Some 400; height := Some 400;
          hasAlpha := Some true |} /\
  exists r, optimizeImage Demo.world (Demo.bytesOf (js "logo.png"))
              (js "logo.png") = Ok r /\
            contentType r = js "image/png".
Proof.
  assert (Hm : sharpMetadata Demo.world (Demo.bytesOf (js "logo.png"))
               = Ok {| format := Some (js "png"); width := Some 400;
                       height := Some 400; hasAlpha := Some true |})
    by reflexivity.
  split; [exact Hm|].
  destruct (optimizeImage_contentType Demo.world _ (js "logo.png") _ Hm)
    as (Hpng & _ & Hret & _).
  destruct (Hret [1; 1; 0] eq_refl) as (r & Hr & _).
  exists r. split; [exact Hr|].
  exact (Hpng (conj eq_refl eq_refl) r Hr).
Defined.

(** ** The resize request *)

(** X24.  What [optimizeImage] asks of sharp.  Whenever [optimizeImage]
    returns, the image was decoded and the buffer returned is the one sharp
    encoded from the input buffer for a request that resizes to a width of
    800 with no height, [fit: inside] and [withoutEnlargement: true], on
    the PNG branch (quality 85, compression level 9) as on the WebP branch
    (quality 85, effort 6); the size returned is the length of that
    buffer.  The size of the image that comes out is sharp's to decide. *)
Theorem optimizeImage_resize_request (W : World) (buffer0 : Buffer)
    (key : jsstring) (r : OptimizedImageResult) :
  optimizeImage W buffer0 key = Ok r ->
  exists metadata request,
    sharpMetadata W buffer0 = Ok metadata /\
    sharpToBuffer W request = Ok (buffer r) /\
    input request = buffer0 /\
    resizing request
    = {| resizeWidth := Some 800; resizeHeight := None; fit := Inside;
         withoutEnlargement := true |} /\
    (output request = Png 85 9 /\ contentType r = js "image/png" \/
     output request = Webp 85 6 /\ contentType r = js "image/webp") /\
    size r = len (buffer r).
Proof.
  unfold optimizeImage.
  destruct (sharpMetadata W buffer0) as [metadata|e]; [|discriminate].
  destruct (formatIs metadata (js "png") && truthy (hasAlpha metadata)).
  - destruct (sharpToBuffer W _) as [outputBuffer|e] eqn:Hb; [|discriminate].
    intros [= <-]. exists metadata. eexists. split; [reflexivity|].
    split; [exact Hb|]. repeat split. by left.
  - destruct (sharpToBuffer W _) as [outputBuffer|e] eqn:Hb; [|discriminate].
    intros [= <-]. exists metadata. eexists. split; [reflexivity|].
    split; [exact Hb|]. repeat split. by right.
Qed.

Lemma optimizeImage_resize_request_logo :
  exists r request,
    optimizeImage Demo.world (Demo.bytesOf (js "logo.png")) (js "logo.png")
    = Ok r /\
    sharpToBuffer Demo.world request = Ok (buffer r) /\
    resizeWidth (resizing request) = Some 800.
Proof.
  assert (H : exists r,
            optimizeImage Demo.world (Demo.bytesOf (js "logo.png"))
              (js "logo.png") = Ok r)
    by (eexists; reflexivity).
  destruct H as [r Hr].
  destruct (optimizeImage_resize_request Demo.world _ _ r Hr)
    as (metadata & request & _ & Hb & _ & Hz & _).
  exists r, request. split; [exact Hr|]. split; [exact Hb|].
  by rewrite Hz.
Defined.

(** ** The event handler *)

Section Handler.

Variable W : World.

Implicit Types (ts : list Task) (st : HandlerState) (records : list S3Record).

Lemma forallb_lookup {A} (f : A -> bool) (l : list A) :
  forallb f l = true <-> forall i x, l !! i = Some x -> f x = true.
Proof.
  rewrite forallb_forall. split.
  - intros H i x Hi. apply H, list_elem_of_In. by eapply list_elem_of_lookup_2.
  - intros H x Hx. apply list_elem_of_In, list_elem_of_lookup_1 in Hx as [i Hi].
    by eapply H.
Qed.

Lemma firstRejection_None ts : firstRejection ts = None -> noRejection ts.
Proof.
  induction ts as [|t ts IH]; intros Hf [|i] e; simpl; try easy.
  - destruct t; try discriminate; easy.
  - apply IH. destruct t; try discriminate; assumption.
Qed.

Lemma firstRejection_Some ts e :
  firstRejection ts = Some e -> exists i, ts !! i = Some (Rejected e).
Proof.
  induction ts as [|t ts IH]; [discriminate|].
  destruct t; simpl; try (intros H; destruct (IH H) as [i Hi]; by exists (S i)).
  intros [= ->]. by exists 0%nat.
Qed.

(** *** Starting the records *)

Lemma startAll_length n records :
  length (fst (startAll W n records)) = length records.
Proof.
  revert n; induction records as [|r rs IH]; intros n; [reflexivity|].
  simpl. specialize (IH (S n)).
  destruct (startRecord W n r), (startAll W (S n) rs); simpl in *; lia.
Qed.

Lemma startAll_lookup n records i r :
  records !! i = Some r ->
  fst (startAll W n records) !! i = Some (fst (startRecord W (n + i) r)).
Proof.
  revert n i; induction records as [|r0 rs IH]; intros n i Hi; [easy|].
  simpl. specialize (IH (S n)).
  destruct (startRecord W n r0) as [t0 evs0] eqn:E0,
    (startAll W (S n) rs) as [ts evs]; simpl in *.
  destruct i as [|i]; simpl in *.
  - injection Hi as <-. rewrite Nat.add_0_r, E0. reflexivity.
  - rewrite (IH i Hi). do 3 f_equal. lia.
Qed.

Lemma startAll_events n records ev :
  ev ∈ snd (startAll W n records) <->
  exists i r, records !! i = Some r /\ ev ∈ snd (startRecord W (n + i) r).
Proof.
  revert n; induction records as [|r0 rs IH]; intros n; simpl.
  - rewrite elem_of_nil. split; [easy|]. by intros (i & r & Hi & _).
  - specialize (IH (S n)).
    destruct (startRecord W n r0) as [t0 evs0] eqn:E0,
      (startAll W (S n) rs) as [ts evs]; simpl in *.
    rewrite elem_of_app, IH. split.
    + intros [H|(i & r & Hi & H)].
      * exists 0%nat, r0. rewrite Nat.add_0_r, E0. by split.
      * exists (S i), r. split; [exact Hi|].
        assert (Heq : (S n + i = n + S i)%nat) by lia.
        rewrite <- Heq. exact H.
    + intros ([|i] & r & Hi & H); simpl in Hi.
      * injection Hi as <-. rewrite Nat.add_0_r, E0 in H. by left.
      * right. exists i, r. split; [exact Hi|].
        assert (Heq : (S n + i = n + S i)%nat) by lia.
        rewrite <- Heq in H. exact H.
Qed.

Lemma startRecord_events i r ev :
  ev ∈ snd (startRecord W i r) ->
  exists key, passesGuards W r key /\ ev = GetSent i (bucketName r) key.
Proof.
  unfold startRecord, passesGuards.
  destruct (decodeURIComponent _) as [key|] eqn:Hd; simpl;
    [|by rewrite elem_of_nil].
  destruct (isSupportedImage key) eqn:Hs; simpl; [|by rewrite elem_of_nil].
  destruct (str_eqb _ _) eqn:E; simpl; [by rewrite elem_of_nil|].
  rewrite list_elem_of_singleton. intros ->. exists key.
  split; [|reflexivity]. split; [reflexivity|]. split; [exact Hs|].
  intros Heq. rewrite Heq, str_eqb_refl in E. discriminate.
Qed.

Lemma startRecord_passes i r key :
  passesGuards W r key ->
  startRecord W i r
  = (AwaitGet (bucketName r) key, [GetSent i (bucketName r) key]).
Proof.
  intros (Hd & Hs & Hb). unfold startRecord.
  rewrite Hd, Hs, (str_eqb_neq _ _ Hb). reflexivity.
Qed.

Lemma startRecord_guarded i r key :
  decodeURIComponent (replacePlus (objectKey r)) = Some key ->
  isSupportedImage key = false \/ bucketName r = OPTIMIZED_BUCKET W ->
  startRecord W i r = (Fulfilled, []).
Proof.
  intros Hd Hg. unfold startRecord. rewrite Hd.
  destruct (isSupportedImage key); simpl; [|reflexivity].
  destruct Hg as [Hg| ->]; [discriminate|].
  rewrite str_eqb_refl. reflexivity.
Qed.

(** *** One step of the event loop *)

Lemma resume_events i t ev : ev ∈ snd (resume W i t) -> eventRecord ev = i.
Proof.
  destruct t; simpl;
    repeat match goal with
           | |- context [match ?x with _ => _ end] => destruct x; simpl
           end;
    rewrite ?elem_of_nil, ?list_elem_of_singleton; try easy; by intros ->.
Qed.

Lemma resume_settled i t : isSettled t = true -> resume W i t = (t, []).
Proof. destruct t; try discriminate; reflexivity. Qed.

Lemma step_lookup_ne st i j : i <> j -> tasks (step W st i) !! j = tasks st !! j.
Proof.
  intros Hij. unfold step.
  destruct (tasks st !! i) as [t|]; [|reflexivity].
  destruct (resume W i t) as [t' evs]; simpl.
  by apply list_lookup_insert_ne.
Qed.

Lemma step_settled st i t :
  tasks st !! i = Some t -> isSettled t = true ->
  tasks (step W st i) = tasks st /\ trace (step W st i) = trace st.
Proof.
  intros Hi Ht. unfold step. rewrite Hi, (resume_settled _ _ Ht); simpl.
  rewrite app_nil_r, list_insert_id by assumption. by split.
Qed.

Lemma step_trace st i ev :
  ev ∈ trace (step W st i) -> ev ∈ trace st \/ eventRecord ev = i.
Proof.
  unfold step.
  destruct (tasks st !! i) as [t|]; [|by left].
  destruct (resume W i t) as [t' evs] eqn:E; simpl.
  rewrite elem_of_app. intros [H|H]; [by left|right].
  apply (resume_events i t). by rewrite E.
Qed.

(** The join fails at the very step in which a record is first rejected,
    whatever the other records are doing. *)
Lemma step_fails_fast st i t e :
  join st = Pending -> tasks st !! i = Some t ->
  fst (resume W i t) = Rejected e ->
  join (step W st i) = Failed e.
Proof.
  intros Hj Hi Hr. unfold step. rewrite Hi.
  destruct (resume W i t) as [t' evs]; simpl in *. subst t'.
  rewrite Hj. reflexivity.
Qed.

Lemma step_joinInv st i : joinInv st -> joinInv (step W st i).
Proof.
  unfold joinInv, step.
  destruct (tasks st !! i) as [t|] eqn:Hi; [|easy].
  assert (Hlt : (i < length (tasks st))%nat) by by eapply lookup_lt_Some.
  destruct (resume W i t) as [t' evs] eqn:Hr; simpl.
  destruct (join st) as [| |e].
  - intros [Hno _].
    assert (Hkeep : (forall e, t' <> Rejected e) ->
              match (if forallb isFulfilled (<[i:=t']> (tasks st))
                     then Resolved else Pending) with
              | Pending => noRejection (<[i:=t']> (tasks st)) /\
                           forallb isFulfilled (<[i:=t']> (tasks st)) = false
              | Resolved => forallb isFulfilled (<[i:=t']> (tasks st)) = true
              | Failed e => exists i0, <[i:=t']> (tasks st) !! i0
                                       = Some (Rejected e)
              end).
    { intros Hnot.
      destruct (forallb isFulfilled (<[i:=t']> (tasks st))); [reflexivity|].
      split; [|reflexivity]. intros j e.
      destruct (decide (i = j)) as [<-|Hij].
      - rewrite list_lookup_insert_eq by assumption. intros [= ->].
        by eapply Hnot.
      - rewrite list_lookup_insert_ne by assumption. apply Hno. }
    destruct t'; simpl; try (apply Hkeep; discriminate).
    exists i. by apply list_lookup_insert_eq.
  - intros Hall.
    assert (Ht : isFulfilled t = true)
      by (eapply forallb_lookup; eassumption).
    destruct t; try discriminate. simpl in Hr. injection Hr as <- <-.
    by rewrite list_insert_id.
  - intros [j Hj]. exists j.
    destruct (decide (i = j)) as [<-|Hij].
    + rewrite Hi in Hj. injection Hj as ->. simpl in Hr. injection Hr as <- <-.
      by apply list_lookup_insert_eq.
    + by rewrite list_lookup_insert_ne.
Qed.

Lemma start_joinInv records : joinInv (start W records).
Proof.
  unfold start, joinInv.
  destruct (startAll W 0 records) as [ts evs]; simpl. unfold joinOf.
  destruct (firstRejection ts) as [e|] eqn:E.
  - by apply firstRejection_Some.
  - destruct (forallb isFulfilled ts) eqn:Hall; [reflexivity|].
    split; [by apply firstRejection_None|reflexivity].
Qed.

Lemma fold_step_joinInv schedule st :
  joinInv st -> joinInv (fold_left (step W) schedule st).
Proof.
  revert st; induction schedule as [|i schedule IH]; intros st Hst; [exact Hst|].
  simpl. apply IH. by apply step_joinInv.
Qed.

Lemma run_joinInv records schedule : joinInv (run W records schedule).
Proof. apply fold_step_joinInv, start_joinInv. Qed.

Lemma start_tasks records :
  tasks (start W records) = fst (startAll W 0 records).
Proof. unfold start. by destruct (startAll W 0 records). Qed.

Lemma start_trace records :
  trace (start W records) = snd (startAll W 0 records).
Proof. unfold start. by destruct (startAll W 0 records). Qed.

(** A record that passes the guards has its fetch sent at the start. *)
Lemma start_sends_get records i r key :
  records !! i = Some r -> passesGuards W r key ->
  tasks (start W records) !! i = Some (AwaitGet (bucketName r) key) /\
  GetSent i (bucketName r) key ∈ trace (start W records).
Proof.
  intros Hi Hp. rewrite start_tasks, start_trace. split.
  - rewrite (startAll_lookup 0 records i r Hi), (startRecord_passes _ _ _ Hp).
    reflexivity.
  - apply startAll_events. exists i, r. split; [exact Hi|].
    rewrite (startRecord_passes _ _ _ Hp). by apply list_elem_of_singleton.
Qed.

(** C3, as amended.  In every state of every run: if the promise of some
    record is rejected, the handler's result is a failure, and a failure
    carries the error of a rejected record; every record has been started
    before the handler waits at the join, a record that passes the guards
    with its fetch sent; and the join fails at the very step in which a
    record is first rejected, whatever stage the other records are at. *)
Theorem handler_join (records : list S3Record) (schedule : list nat) :
  ((exists i e, tasks (run W records schedule) !! i = Some (Rejected e)) ->
   exists e, join (run W records schedule) = Failed e) /\
  (forall e, join (run W records schedule) = Failed e ->
     exists i, tasks (run W records schedule) !! i = Some (Rejected e)) /\
  length (tasks (start W records)) = length records /\
  (forall i r key, records !! i = Some r -> passesGuards W r key ->
     GetSent i (bucketName r) key ∈ trace (start W records)) /\
  (forall i t e,
     join (run W records schedule) = Pending ->
     tasks (run W records schedule) !! i = Some t ->
     fst (resume W i t) = Rejected e ->
     join (step W (run W records schedule) i) = Failed e).
Proof.
  pose proof (run_joinInv records schedule) as Hinv. unfold joinInv in Hinv.
  repeat split.
  - intros (i & e & Hi).
    destruct (join (run W records schedule)) as [| |e'].
    + destruct Hinv as [Hno _]. by apply Hno in Hi.
    + assert (isFulfilled (Rejected e) = true)
        by (eapply forallb_lookup; eassumption).
      discriminate.
    + by exists e'.
  - intros e He. by rewrite He in Hinv.
  - rewrite start_tasks. apply startAll_length.
  - intros i r key Hi Hp. by apply (start_sends_get records i r key).
  - intros i t e. apply step_fails_fast.
Qed.

(** C7, the guards.  For every record with a decoded key, when that key
    has an extension outside the allow-list or the record's bucket is the
    optimized bucket: in every state of every run the record's promise is
    fulfilled (it is never rejected), and no fetch or store of the run is
    the record's. *)
Theorem handler_guards_skip (records : list S3Record) (schedule : list nat)
    (i : nat) (r : S3Record) (key : jsstring) :
  records !! i = Some r ->
  decodeURIComponent (replacePlus (objectKey r)) = Some key ->
  isSupportedImage key = false \/ bucketName r = OPTIMIZED_BUCKET W ->
  tasks (run W records schedule) !! i = Some Fulfilled /\
  (forall ev, ev ∈ trace (run W records schedule) -> eventRecord ev <> i).
Proof.
  intros Hi Hd Hg. unfold run.
  assert (Hstart : tasks (start W records) !! i = Some Fulfilled /\
            forall ev, ev ∈ trace (start W records) -> eventRecord ev <> i).
  { rewrite start_tasks, start_trace. split.
    - rewrite (startAll_lookup 0 records i r Hi).
      change (0 + i)%nat with i.
      by rewrite (startRecord_guarded i r key Hd Hg).
    - intros ev Hev Heq.
      apply startAll_events in Hev as (j & r' & Hj & Hev).
      apply startRecord_events in Hev as Hev'.
      destruct Hev' as (key' & _ & ->). simpl in Heq, Hev. subst j.
      rewrite Hi in Hj. injection Hj as <-.
      change (0 + i)%nat with i in Hev.
      rewrite (startRecord_guarded i r key Hd Hg) in Hev.
      by apply elem_of_nil in Hev. }
  revert Hstart. generalize (start W records).
  induction schedule as [|k schedule IH]; intros st Hst; [exact Hst|].
  simpl. apply IH. destruct Hst as [Ht Hev].
  destruct (decide (k = i)) as [->|Hk].
  - destruct (step_settled st i Fulfilled Ht eq_refl) as [-> ->]. by split.
  - split; [by rewrite step_lookup_ne|].
    intros ev Hin. apply step_trace in Hin as [Hin|Hin]; [by apply Hev|].
    congruence.
Qed.

End Handler.

Lemma handler_guards_skip_demo :
  Demo.records !! 3%nat
  = Some {| bucketName := js "optimized"; objectKey := js "logo.png" |} /\
  tasks (run Demo.world Demo.records [3; 0; 3; 1]%nat) !! 3%nat = Some Fulfilled.
Proof.
  split; [reflexivity|].
  exact (proj1 (handler_guards_skip Demo.world Demo.records [3; 0; 3; 1]%nat
                  3%nat _ (js "logo.png") eq_refl eq_refl
                  (or_intror eq_refl))).
Defined.

(** A key that is not well-formed percent-encoding has no decoded key:
    [decodeURIComponent] throws before either guard is reached, and the
    record's promise is rejected. *)
Example handler_undecodable_key :
  tasks (start Demo.world
           [{| bucketName := js "optimized"; objectKey := js "100%.png" |}])
  = [Rejected URIError].
Proof. reflexivity. Qed.

(** C3 as stated fails.  Two of the records pass the guards; the fetch of
    record 0 is rejected first.  The handler has then failed, while record 1
    is still waiting for its fetch and nothing has been stored; record 1
    stores its image only afterwards, once the event loop resumes it. *)
Lemma handler_fails_before_other_record_stores :
  join (run Demo.world Demo.records [0%nat]) = Failed (External 404) /\
  tasks (run Demo.world Demo.records [0%nat]) !! 1%nat
  = Some (AwaitGet (js "uploads") (js "my photo.JPG")) /\
  trace (run Demo.world Demo.records [0%nat])
  = [GetSent 0 (js "uploads") (js "missing.jpg");
     GetSent 1 (js "uploads") (js "my photo.JPG")] /\
  last (trace (run Demo.world Demo.records [0; 1; 1; 1; 1]%nat))
  = Some (PutDone 1).
Proof. repeat split; vm_compute; reflexivity. Qed.

(** ** The bulk driver *)

Section Driver.

Variable W : World.

Implicit Types (s : RunState) (key : jsstring) (id : nat).

Lemma countDelays_snoc j ev :
  countDelays (j ++ [ev])
  = countDelays j + match ev with Delayed _ => 1 | _ => 0 end.
Proof.
  unfold countDelays. rewrite List.filter_app, length_app.
  destruct ev; simpl; lia.
Qed.

Lemma countProcessing_snoc j ev :
  countProcessing (j ++ [ev])
  = countProcessing j + match ev with ProcessingItem _ _ => 1 | _ => 0 end.
Proof.
  unfold countProcessing. rewrite List.filter_app, length_app.
  destruct ev; simpl; lia.
Qed.

Lemma Advance_refl s : Advance s s 0 0 0 0 0.
Proof.
  constructor; try lia.
  exists []. rewrite app_nil_r. repeat split; [constructor|lia].
Qed.

Lemma Advance_trans s1 s2 s3 n1 n2 a1 a2 b1 b2 c1 c2 d1 d2 :
  Advance s1 s2 n1 a1 b1 c1 d1 -> Advance s2 s3 n2 a2 b2 c2 d2 ->
  Advance s1 s3 (n1 + n2) (a1 + a2) (b1 + b2) (c1 + c2) (d1 + d2).
Proof.
  intros [(j1 & E1 & F1 & N1)] [(j2 & E2 & F2 & N2)]. constructor; try lia.
  exists (j1 ++ j2). rewrite E2, E1, app_assoc.
  split; [reflexivity|]. split; [by apply Forall_app_2|].
  intros Hn Happ. apply app_eq_nil in Happ as [-> ->].
  destruct (Z.lt_ge_cases 0 (a1 + d1));
    [apply N1; [lia|reflexivity]|apply N2; [lia|reflexivity]].
Qed.

Lemma Advance_eq s s' n n' a a' b b' c c' d d' :
  Advance s s' n a b c d ->
  n = n' -> a = a' -> b = b' -> c = c' -> d = d' ->
  Advance s s' n' a' b' c' d'.
Proof. by intros H -> -> -> -> ->. Qed.

(** The events a step has added to the journal, none of them a delay. *)
Ltac journal_grown :=
  rewrite <- ?app_assoc; eexists; split; [reflexivity|];
  split; [repeat (constructor; [intros ?; discriminate|]); constructor|];
  first [discriminate | lia].

(** Closes the goals left after a worker has been run case by case. *)
Ltac advance :=
  eexists; split; [reflexivity|];
  constructor; simpl;
  rewrite ?countDelays_snoc, ?countProcessing_snoc;
  first [lia | journal_grown].

(** *** The probe *)

(** [optimizedVersionExists] always returns: it answers whether one of the
    two fetches succeeds, and a failed fetch is no error. *)
Lemma optimizedVersionExists_run id key s :
  exists s',
    optimizedVersionExists W id key s = (Ok (alreadyOptimized W id key), s') /\
    Advance s s' 0 0 0 0 0.
Proof.
  unfold optimizedVersionExists, alreadyOptimized, probeKeys, tryCatch, bind,
    emit, await, ret.
  simpl.
  destruct (sendGetObject W id (OPTIMIZED_BUCKET W)
              (generateOptimizedKey key (js "image/webp"))); simpl.
  - advance.
  - destruct (sendGetObject W id (OPTIMIZED_BUCKET W)
                (generateOptimizedKey key (js "image/png"))); simpl; advance.
Qed.


(** *** The workers *)

(** [processImageDirect] always returns; it counts the image as processed
    when its [try] block returns and as an error when the block throws. *)
Lemma processImageDirect_run id key s :
  exists s',
    processImageDirect W id key s = (Ok tt, s') /\
    Advance s s' 0 0
      (indicator (isOk (directOutcome W id key)))
      (indicator (negb (isOk (directOutcome W id key)))) 1.
Proof.
  unfold processImageDirect, directOutcome, tryCatch, bind, emit, await,
    updateStats, throw.
  simpl.
  destruct (sendGetObject W id (SOURCE_BUCKET W) key) as [response|e]; simpl;
    [|advance].
  destruct (Body response) as [[originalBuffer|e]|]; simpl; [|advance..].
  destruct (optimizeImage W originalBuffer key) as [optimized|e]; simpl;
    [|advance].
  destruct (sendPutObject W id _) as [[]|e]; simpl; advance.
Qed.

Lemma processImageViaLambda_run id key s :
  exists s',
    processImageViaLambda W id key s = (Ok tt, s') /\
    Advance s s' 0 0
      (indicator (isOk (lambdaOutcome W id key)))
      (indicator (negb (isOk (lambdaOutcome W id key)))) 1.
Proof.
  unfold processImageViaLambda, lambdaOutcome, tryCatch, bind, emit, await,
    updateStats.
  simpl.
  destruct (sendCopyObject W id (copyCommand W id key)) as [[]|e]; simpl;
    advance.
Qed.

(** The function mapped over a batch always returns: the item is skipped,
    processed or counted as an error, and one worker has been started. *)
Lemma processItem_run (sk ul : bool) key s :
  exists s',
    processItem W sk ul key s = (Ok tt, s') /\
    Advance s s' 1
      (indicator (skips W sk (started s) key))
      (indicator (succeeds W sk ul (started s) key))
      (indicator (fails W sk ul (started s) key))
      (indicator (dispatched W sk (started s) key)).
Proof.
  unfold processItem, newWorker, bind at 1 2. simpl.
  set (s1 := {| stats := stats s; started := S (started s);
                journal := journal s |}).
  assert (A1 : Advance s s1 1 0 0 0 0).
  { constructor; simpl; try lia.
    exists []. rewrite app_nil_r. repeat split; [constructor|lia]. }
  assert (Hprobe : exists s2,
            (if sk then optimizedVersionExists W (started s) key
             else ret false) s1
            = (Ok (skips W sk (started s) key), s2) /\
            Advance s1 s2 0 0 0 0 0).
  { unfold skips. destruct sk; simpl.
    - apply optimizedVersionExists_run.
    - exists s1. split; [reflexivity|apply Advance_refl]. }
  destruct Hprobe as (s2 & -> & A2).
  pose proof (Advance_trans _ _ _ _ _ _ _ _ _ _ _ _ _ A1 A2) as A12.
  unfold succeeds, fails, dispatched, processingRaises.
  destruct (skips W sk (started s) key); simpl.
  - unfold bind, emit, updateStats; simpl. eexists. split; [reflexivity|].
    match goal with
    | |- Advance s ?s3 _ _ _ _ _ =>
        assert (A3 : Advance s2 s3 0 1 0 0 0)
          by (constructor; simpl;
              rewrite ?countDelays_snoc, ?countProcessing_snoc;
              first [lia | journal_grown])
    end.
    eapply Advance_eq;
      [exact (Advance_trans _ _ _ _ _ _ _ _ _ _ _ _ _ A12 A3)|..];
      reflexivity.
  - destruct ul.
    + destruct (processImageViaLambda_run (started s) key s2) as (s3 & -> & A3).
      exists s3. split; [reflexivity|].
      eapply Advance_eq; [exact (Advance_trans _ _ _ _ _ _ _ _ _ _ _ _ _ A12 A3)|..];
        destruct (isOk (lambdaOutcome W (started s) key)); reflexivity.
    + destruct (processImageDirect_run (started s) key s2) as (s3 & -> & A3).
      exists s3. split; [reflexivity|].
      eapply Advance_eq; [exact (Advance_trans _ _ _ _ _ _ _ _ _ _ _ _ _ A12 A3)|..];
        destruct (isOk (directOutcome W (started s) key)); reflexivity.
Qed.

(** A batch always returns, every item of it accounted for. *)
Lemma processBatch_run (sk ul : bool) (batch : list jsstring) s :
  exists s',
    processBatch W sk ul batch s = (Ok tt, s') /\
    Advance s s' (length batch)
      (countFrom (skips W sk) (started s) batch)
      (countFrom (succeeds W sk ul) (started s) batch)
      (countFrom (fails W sk ul) (started s) batch)
      (countFrom (dispatched W sk) (started s) batch).
Proof.
  revert s; induction batch as [|key rest IH]; intros s.
  - exists s. split; [reflexivity|apply Advance_refl].
  - cbn [processBatch]. unfold bind.
    destruct (processItem_run sk ul key s) as (s1 & -> & A1).
    destruct (IH s1) as (s2 & -> & A2).
    exists s2. split; [reflexivity|].
    rewrite (adv_started _ _ _ _ _ _ _ A1) in A2.
    replace (started s + 1)%nat with (S (started s)) in A2 by lia.
    eapply Advance_eq;
      [exact (Advance_trans _ _ _ _ _ _ _ _ _ _ _ _ _ A1 A2)|..];
      reflexivity.
Qed.

Lemma countFrom_app f id (l1 l2 : list jsstring) :
  countFrom f id (l1 ++ l2)
  = countFrom f id l1 + countFrom f (id + length l1) l2.
Proof.
  revert id; induction l1 as [|key l1 IH]; intros id; simpl.
  - by rewrite Nat.add_0_r.
  - rewrite IH. replace (S id + length l1)%nat with (id + S (length l1))%nat
      by lia. lia.
Qed.

Lemma countFrom_bounds f id (l : list jsstring) :
  0 <= countFrom f id l <= Z.of_nat (length l).
Proof.
  revert id; induction l as [|key l IH]; intros id; [simpl; lia|].
  cbn [countFrom length]. rewrite Nat2Z.inj_succ.
  specialize (IH (S id)). unfold indicator. destruct (f id key); lia.
Qed.

(** Each item is skipped, processed or failed, and exactly one of these. *)
Lemma countFrom_partition (sk ul : bool) id (l : list jsstring) :
  countFrom (skips W sk) id l + countFrom (succeeds W sk ul) id l
  + countFrom (fails W sk ul) id l = Z.of_nat (length l) /\
  countFrom (dispatched W sk) id l
  = Z.of_nat (length l) - countFrom (skips W sk) id l.
Proof.
  revert id; induction l as [|key l IH]; intros id; [simpl; lia|].
  cbn [countFrom length]. rewrite Nat2Z.inj_succ.
  specialize (IH (S id)).
  assert (indicator (skips W sk id key) + indicator (succeeds W sk ul id key)
          + indicator (fails W sk ul id key) = 1 /\
          indicator (dispatched W sk id key)
          = 1 - indicator (skips W sk id key)) as [H1 H2].
  { unfold succeeds, fails, dispatched, indicator.
    destruct (skips W sk id key), (processingRaises W ul id key); simpl; lia. }
  lia.
Qed.

Lemma take_min_length {A} (n : nat) (l : list A) :
  take (n `min` length l) l = take n l.
Proof.
  destruct (Nat.le_gt_cases n (length l)).
  - by rewrite Nat.min_l.
  - rewrite Nat.min_r, !take_ge by lia. reflexivity.
Qed.

(** Inside the array and with a positive size, [slice(i, i + size)] is the
    next [size] items. *)
Lemma slice_window {A} (l : list A) (i size : Z) :
  0 <= i -> 0 < size ->
  slice l i (i + size) = take (Z.to_nat size) (drop (Z.to_nat i) l).
Proof.
  intros Hi Hsize. unfold slice.
  destruct (Z.ltb_spec i 0); [lia|].
  destruct (Z.ltb_spec (i + size) 0); [lia|].
  rewrite <- (take_min_length (Z.to_nat size)), length_drop.
  destruct (Z.le_gt_cases i (Z.of_nat (length l))).
  - rewrite (Z.min_l i) by lia. f_equal. lia.
  - rewrite !drop_ge by lia. by rewrite !take_nil.
Qed.

Lemma drop_take_length {A} (n : nat) (l : list A) :
  drop (length (take n l)) l = drop n l.
Proof.
  rewrite length_take. destruct (Nat.le_gt_cases n (length l)).
  - by rewrite Nat.min_l.
  - rewrite Nat.min_r, !drop_ge by lia. reflexivity.
Qed.

(** One batch taken off the count of the items still to come. *)
Lemma countFrom_next_batch f (n size : nat) (all : list jsstring) :
  countFrom f n (drop n all)
  = countFrom f n (take size (drop n all))
    + countFrom f (n + length (take size (drop n all)))
        (drop (n + length (take size (drop n all))) all).
Proof.
  rewrite <- (take_drop size (drop n all)) at 1.
  rewrite countFrom_app. f_equal. f_equal.
  by rewrite <- drop_take_length, drop_drop.
Qed.

Lemma delaysFrom_next (B D L i : Z) :
  0 < B -> i < L ->
  delaysFrom B D L i
  = indicator ((i + B <? L) && (0 <? D)) + delaysFrom B D L (i + B).
Proof.
  intros HB Hi. unfold delaysFrom, indicator.
  destruct (Z.ltb_spec 0 D); simpl; [|by rewrite andb_false_r].
  rewrite andb_true_r.
  destruct (Z.ltb_spec i L); [|lia].
  destruct (Z.ltb_spec (i + B) L).
  - replace (L - i - 1) with (L - (i + B) - 1 + 1 * B) by lia.
    rewrite Z.div_add by lia. lia.
  - rewrite Z.div_small by lia. reflexivity.
Qed.

Lemma last_notDelay (l j : list DriverEvent) :
  j <> [] -> Forall notDelay j -> forall ms, last (l ++ j) <> Some (Delayed ms).
Proof.
  intros Hj HF ms Hlast. rewrite last_app in Hlast.
  destruct (last j) as [ev|] eqn:E.
  - injection Hlast as ->. apply last_Some_elem_of in E.
    rewrite Forall_forall in HF. by apply (HF _ E ms).
  - by apply last_None in E.
Qed.

(** The loop over the batches, for a positive batch size: with fuel for one
    iteration more than there are items left, it ends, it does not throw,
    every item from [i] on has been skipped, processed or counted as an
    error, and the last thing the run did was not a delay. *)
Lemma batchLoop_run (sk ul : bool) (B D : Z) (all : list jsstring) :
  0 < B ->
  forall (fuel : nat) (i : Z) s,
    0 <= i ->
    Z.of_nat (started s) = Z.min i (Z.of_nat (length all)) ->
    Z.max 0 (Z.of_nat (length all) - i) < Z.of_nat fuel ->
    (Z.of_nat (length all) <= i ->
     forall ms, last (journal s) <> Some (Delayed ms)) ->
    exists s',
      batchLoop W sk ul B D all fuel i s = Some (Ok tt, s') /\
      started s' = length all /\
      total (stats s') = total (stats s) /\
      skipped (stats s')
      = skipped (stats s)
        + countFrom (skips W sk) (started s) (drop (started s) all) /\
      processed (stats s')
      = processed (stats s)
        + countFrom (succeeds W sk ul) (started s) (drop (started s) all) /\
      errors (stats s')
      = errors (stats s)
        + countFrom (fails W sk ul) (started s) (drop (started s) all) /\
      countProcessing (journal s')
      = countProcessing (journal s)
        + countFrom (dispatched W sk) (started s) (drop (started s) all) /\
      countDelays (journal s')
      = countDelays (journal s) + delaysFrom B D (Z.of_nat (length all)) i /\
      (forall ms, last (journal s') <> Some (Delayed ms)).
Proof.
  intros HB. induction fuel as [|fuel IH]; intros i s Hi Hst Hfuel Hlast;
    [lia|].
  cbn [batchLoop].
  destruct (Z.ltb_spec i (Z.of_nat (length all))) as [Hlt|Hge].
  - rewrite slice_window by lia.
    assert (Hn : Z.to_nat i = started s) by lia. rewrite Hn.
    set (batch := take (Z.to_nat B) (drop (started s) all)).
    unfold bind.
    destruct (processBatch_run sk ul batch s) as (s1 & -> & A1).
    assert (Hlen : Z.of_nat (length batch)
                   = Z.min B (Z.of_nat (length all) - i)).
    { unfold batch. rewrite length_take, length_drop. lia. }
    destruct A1 as [(j & Ej & Fj & Nj) A1s A1t A1k A1p A1e A1d A1c].
    assert (Hlast1 : forall ms, last (journal s1) <> Some (Delayed ms)).
    { rewrite Ej. apply last_notDelay; [|exact Fj]. apply Nj.
      destruct (countFrom_partition sk ul (started s) batch) as [_ Hdisp].
      lia. }
    assert (Hpause : exists s2,
              (if (i + B <? Z.of_nat (length all)) && (0 <? D)
               then emit (Delayed D) else ret tt) s1 = (Ok tt, s2) /\
              started s2 = started s1 /\ stats s2 = stats s1 /\
              countProcessing (journal s2) = countProcessing (journal s1) /\
              countDelays (journal s2)
              = countDelays (journal s1)
                + indicator ((i + B <? Z.of_nat (length all)) && (0 <? D)) /\
              (Z.of_nat (length all) <= i + B -> journal s2 = journal s1)).
    { destruct (Z.ltb_spec (i + B) (Z.of_nat (length all)));
        destruct (0 <? D);
        eexists; (split; [reflexivity|]); simpl;
        rewrite ?countProcessing_snoc, ?countDelays_snoc;
        repeat split; lia. }
    destruct Hpause as (s2 & -> & Hs2 & Hstats2 & Hproc2 & Hdel2 & Hj2).
    destruct (IH (i + B) s2)
      as (s' & -> & Hfin & Ht & Hk & Hp & He & Hc & Hd & Hl);
      [lia|lia|lia|by intros Hend; rewrite (Hj2 Hend)|].
    exists s'. split; [reflexivity|]. split; [exact Hfin|].
    rewrite Hs2, Hstats2, A1s in *. fold batch in Hk, Hp, He, Hc.
    rewrite (countFrom_next_batch (skips W sk) (started s) (Z.to_nat B)),
      (countFrom_next_batch (succeeds W sk ul) (started s) (Z.to_nat B)),
      (countFrom_next_batch (fails W sk ul) (started s) (Z.to_nat B)),
      (countFrom_next_batch (dispatched W sk) (started s) (Z.to_nat B)).
    fold batch.
    rewrite (delaysFrom_next B D _ i) by lia.
    repeat split; try lia. exact Hl.
  - exists s. split; [reflexivity|].
    assert (Hn : started s = length all) by lia.
    rewrite Hn, drop_all. simpl.
    unfold delaysFrom.
    destruct (Z.ltb_spec i (Z.of_nat (length all))); [lia|].
    rewrite andb_false_r. repeat split; try lia. by apply Hlast.
Qed.

Lemma ceilDiv_pred (L B : Z) : 0 < B -> (L - 1) / B = ceilDiv L B - 1.
Proof.
  intros HB. unfold ceilDiv.
  pose proof (Z.div_mod (- L) B). pose proof (Z.mod_pos_bound (- L) B).
  pose proof (Z.div_mod (L - 1) B). pose proof (Z.mod_pos_bound (L - 1) B).
  nia.
Qed.

Lemma delaysFrom_start (B D L : Z) :
  0 < B ->
  delaysFrom B D L 0 = if (0 <? D) && (0 <? L) then ceilDiv L B - 1 else 0.
Proof.
  intros HB. unfold delaysFrom.
  destruct ((0 <? D) && (0 <? L)); [|reflexivity].
  rewrite <- ceilDiv_pred by assumption. f_equal. lia.
Qed.


(** A whole run, for a positive batch size and fuel for one iteration more
    than there are listed images. *)
Lemma processExistingImages_run (options : Options) (fuel : nat) :
  0 < default 10 (batchSize options) ->
  Z.of_nat (length (listAllImages W (default [] (prefix options))))
  < Z.of_nat fuel ->
  exists s',
    processExistingImages W options fuel = Some (Ok tt, s') /\
    started s' = length (listAllImages W (default [] (prefix options))) /\
    total (stats s')
    = Z.of_nat (length (listAllImages W (default [] (prefix options)))) /\
    skipped (stats s')
    = countFrom (skips W (default true (skipExisting options))) 0
        (listAllImages W (default [] (prefix options))) /\
    processed (stats s')
    = countFrom (succeeds W (default true (skipExisting options))
                   (default false (useLambda options))) 0
        (listAllImages W (default [] (prefix options))) /\
    errors (stats s')
    = countFrom (fails W (default true (skipExisting options))
                   (default false (useLambda options))) 0
        (listAllImages W (default [] (prefix options))) /\
    countProcessing (journal s')
    = countFrom (dispatched W (default true (skipExisting options))) 0
        (listAllImages W (default [] (prefix options))) /\
    countDelays (journal s')
    = delaysFrom (default 10 (batchSize options))
        (default 1000 (delayBetweenBatches options))
        (Z.of_nat (length (listAllImages W (default [] (prefix options))))) 0 /\
    (forall ms, last (journal s') <> Some (Delayed ms)).
Proof.
  intros HB Hfuel. unfold processExistingImages.
  set (all := listAllImages W (default [] (prefix options))) in *.
  edestruct (batchLoop_run (default true (skipExisting options))
               (default false (useLambda options))
               (default 10 (batchSize options))
               (default 1000 (delayBetweenBatches options)) all HB fuel 0)
    as (s' & -> & Hfin & Ht & Hk & Hp & He & Hc & Hd & Hl);
    [lia|simpl; lia|lia|by intros _ ms|].
  exists s'. split; [reflexivity|]. simpl in *.
  rewrite drop_0 in *. repeat split; try assumption; lia.
Qed.


(** C6, error containment.  Both processing functions always return: they
    count the image as an error exactly when their [try] block throws and
    as processed otherwise.  And for a positive batch size the run ends
    without throwing, whatever fails: the error count is the number of
    items whose processing threw, every worker was started, and every
    listed image was skipped, processed or counted as an error. *)
Theorem failures_never_abort (options : Options) (fuel : nat) :
  0 < default 10 (batchSize options) ->
  Z.of_nat (length (listAllImages W (default [] (prefix options))))
  < Z.of_nat fuel ->
  (forall id key s, exists s',
     processImageDirect W id key s = (Ok tt, s') /\
     errors (stats s')
     = errors (stats s) + indicator (negb (isOk (directOutcome W id key))) /\
     processed (stats s')
     = processed (stats s) + indicator (isOk (directOutcome W id key))) /\
  (forall id key s, exists s',
     processImageViaLambda W id key s = (Ok tt, s') /\
     errors (stats s')
     = errors (stats s) + indicator (negb (isOk (lambdaOutcome W id key))) /\
     processed (stats s')
     = processed (stats s) + indicator (isOk (lambdaOutcome W id key))) /\
  exists s',
    processExistingImages W options fuel = Some (Ok tt, s') /\
    started s' = length (listAllImages W (default [] (prefix options))) /\
    errors (stats s')
    = countFrom (fails W (default true (skipExisting options))
                   (default false (useLambda options))) 0
        (listAllImages W (default [] (prefix options))) /\
    skipped (stats s') + processed (stats s') + errors (stats s')
    = total (stats s') /\
    total (stats s')
    = Z.of_nat (length (listAllImages W (default [] (prefix options)))).
Proof.
  intros HB Hfuel. split; [|split].
  - intros id key s.
    destruct (processImageDirect_run id key s) as (s' & E & []).
    exists s'. repeat split; assumption.
  - intros id key s.
    destruct (processImageViaLambda_run id key s) as (s' & E & []).
    exists s'. repeat split; assumption.
  - destruct (processExistingImages_run options fuel HB Hfuel)
      as (s' & E & Hfin & Ht & Hk & Hp & He & _ & _ & _).
    destruct (countFrom_partition (default true (skipExisting options))
                (default false (useLambda options)) 0
                (listAllImages W (default [] (prefix options))))
      as [Hsum _].
    exists s'. repeat split; try assumption. lia.
Qed.

(** A batch size of 0 never advances: once an image is listed, the loop
    processes empty batches for ever, whatever the fuel. *)
Theorem batch_size_zero_never_ends (options : Options) (fuel : nat) :
  batchSize options = Some 0 ->
  listAllImages W (default [] (prefix options)) <> [] ->
  processExistingImages W options fuel = None.
Proof.
  intros HB Hall. unfold processExistingImages. rewrite HB. simpl default.
  generalize {| stats := setTotal
                  (Z.of_nat (length (listAllImages W (default [] (prefix options)))))
                  noStats;
                started := 0; journal := [] |}.
  induction fuel as [|fuel IH]; intros s; [reflexivity|].
  cbn [batchLoop].
  destruct (Z.ltb_spec 0
              (Z.of_nat (length (listAllImages W (default [] (prefix options))))))
    as [_|Hlen].
  - change (0 + 0) with 0.
    assert (slice (listAllImages W (default [] (prefix options))) 0 0 = [])
      as ->.
    { unfold slice. rewrite Z.ltb_irrefl, Z.sub_diag. reflexivity. }
    unfold bind. simpl.
    destruct (_ && _); simpl; apply IH.
  - destruct (listAllImages W (default [] (prefix options)));
      [congruence|simpl in Hlen; lia].
Qed.

End Driver.

Lemma batch_size_zero_never_ends_demo :
  processExistingImages Demo.world
    {| prefix := None; skipExisting := None; useLambda := None;
       batchSize := Some 0; delayBetweenBatches := None |} 1000 = None.
Proof.
  apply (batch_size_zero_never_ends Demo.world); [reflexivity|discriminate].
Defined.


Lemma failures_never_abort_demo :
  exists s',
    processExistingImages Demo.world quickProcessOptions 5
    = Some (Ok tt, s') /\
    errors (stats s') = 1 /\
    skipped (stats s') + processed (stats s') + errors (stats s') = 4.
Proof.
  destruct (failures_never_abort Demo.world quickProcessOptions 5 eq_refl
              eq_refl) as (_ & _ & s' & E & _ & He & Hsum & Ht).
  exists s'. split; [exact E|]. split; [exact He|].
  rewrite Hsum. exact Ht.
Defined.

(** C5 as stated fails.  With four listed images, a batch size of 1 and a
    configured delay of 0 the run takes no delay, where the claim counts
    [ceil(4 / 1) - 1 = 3]; and with the defaults of [quick-process.ts] and a
    listing without images it takes none, where the claim counts -1. *)
Lemma no_delay_without_positive_delay :
  (delaysOfRun (processExistingImages Demo.world Demo.oneByOne 5) = Some 0 /\
   ceilDiv (Z.of_nat (length (listAllImages Demo.world []))) 1 - 1 = 3) /\
  (delaysOfRun (processExistingImages Demo.emptyWorld quickProcessOptions 1)
   = Some 0 /\
   ceilDiv (Z.of_nat (length (listAllImages Demo.emptyWorld []))) 5 - 1 = -1).
Proof. repeat split; vm_compute; reflexivity. Qed.

(** * More properties of the program *)

(** ** Keys *)

Section Keys.

Implicit Types (s b e key : jsstring).

Lemma lowerUnit_dot u : 46 ∈ lowerUnit u -> u = 46.
Proof.
  unfold lowerUnit.
  destruct (Z.leb_spec 65 u), (Z.leb_spec u 90), (Z.eqb_spec u 304),
    (Z.eqb_spec u 8490); simpl;
    rewrite ?elem_of_cons, ?elem_of_nil; intros ?; lia.
Qed.

(** Lowercasing makes no dot. *)
Lemma toLowerCase_dot s : 46 ∈ toLowerCase s -> 46 ∈ s.
Proof.
  induction s as [|u s IH]; [easy|].
  rewrite toLowerCase_cons, elem_of_app, elem_of_cons.
  intros [H|H]; [left; symmetry; by apply lowerUnit_dot|right; by apply IH].
Qed.

(** X4.  A key without a dot is never a supported image, whatever its
    letters: a key that is just [jpg], or [README], is rejected. *)
Theorem isSupportedImage_no_dot key : 46 ∉ key -> isSupportedImage key = false.
Proof.
  intros Hk. destruct (isSupportedImage key) eqn:E; [|reflexivity].
  apply isSupportedImage_spec in E as [_ E].
  unfold trailingExtension in E.
  rewrite lastIndexOf_no_dot, substringFrom_minus_one in E by assumption.
  apply includes_spec, SUPPORTED_FORMATS_shape in E as (r & Hr & _).
  exfalso. apply Hk, toLowerCase_dot. rewrite Hr. by left.
Qed.

Lemma isSupportedImage_no_dot_jpg :
  (46 ∉ js "jpg") /\ isSupportedImage (js "jpg") = false.
Proof.
  assert (H : 46 ∉ js "jpg") by compute_done.
  split; [exact H|exact (isSupportedImage_no_dot _ H)].
Defined.

(** X5.  Deriving the key is idempotent: the derived key of a derived key
    is that key again, for every key and every content type. *)
Theorem generateOptimizedKey_idempotent key contentType0 :
  generateOptimizedKey (generateOptimizedKey key contentType0) contentType0
  = generateOptimizedKey key contentType0.
Proof.
  rewrite (generateOptimizedKey_unfold key).
  destruct (str_eqb contentType0 (js "image/webp")) eqn:Ew.
  - rewrite generateOptimizedKey_unfold, Ew.
    by rewrite (baseName_with_extension _ "webp") by compute_done.
  - destruct (str_eqb contentType0 (js "image/png")) eqn:Ep.
    + rewrite generateOptimizedKey_unfold, Ew, Ep.
      by rewrite (baseName_with_extension _ "png") by compute_done.
    + rewrite generateOptimizedKey_unfold, Ew, Ep. reflexivity.
Qed.

(** X6.  The derived key forgets the source extension: two keys with the
    same base name and different extensions have the same derived key, so
    their optimized images are stored under one key. *)
Theorem generateOptimizedKey_same_base b e1 e2 :
  46 ∉ e1 -> 46 ∉ e2 ->
  generateOptimizedKey (b ++ 46 :: e1) (js "image/webp")
  = generateOptimizedKey (b ++ 46 :: e2) (js "image/webp") /\
  generateOptimizedKey (b ++ 46 :: e1) (js "image/png")
  = generateOptimizedKey (b ++ 46 :: e2) (js "image/png") /\
  generateOptimizedKey (b ++ 46 :: e1) (js "image/webp") = b ++ js ".webp".
Proof.
  intros H1 H2.
  rewrite !generateOptimizedKey_unfold, !baseName_split by assumption.
  repeat split.
Qed.

Lemma generateOptimizedKey_same_base_photo :
  generateOptimizedKey (js "img/photo.jpg") (js "image/webp")
  = generateOptimizedKey (js "img/photo.bmp") (js "image/webp").
Proof.
  assert (H1 : 46 ∉ js "jpg") by compute_done.
  assert (H2 : 46 ∉ js "bmp") by compute_done.
  exact (proj1 (generateOptimizedKey_same_base (js "img/photo") _ _ H1 H2)).
Defined.

(** X7.  A derived key is itself a supported image: for every key whose
    base name has no U+0130, the derived [.webp] key and the derived [.png]
    key both pass [isSupportedImage].  Only the bucket guard of the handler
    keeps an optimized object from being optimized again. *)
Theorem generateOptimizedKey_supported key :
  304 ∉ baseName key ->
  isSupportedImage (generateOptimizedKey key (js "image/webp")) = true /\
  isSupportedImage (generateOptimizedKey key (js "image/png")) = true.
Proof.
  intros H304. rewrite !generateOptimizedKey_unfold. simpl str_eqb. cbv iota.
  split; apply isSupportedImage_spec.
  - rewrite (baseName_with_extension _ "webp") by compute_done.
    split; [exact H304|].
    change (js ".webp") with (46 :: js "webp").
    by rewrite trailingExtension_split by compute_done.
  - rewrite (baseName_with_extension _ "png") by compute_done.
    split; [exact H304|].
    change (js ".png") with (46 :: js "png").
    by rewrite trailingExtension_split by compute_done.
Qed.

Lemma generateOptimizedKey_supported_photo :
  (304 ∉ baseName (js "a/photo.tiff")) /\
  isSupportedImage (generateOptimizedKey (js "a/photo.tiff") (js "image/webp"))
  = true.
Proof.
  assert (H : 304 ∉ baseName (js "a/photo.tiff")) by compute_done.
  split; [exact H|exact (proj1 (generateOptimizedKey_supported _ H))].
Defined.

(** *** The decoded key *)

Lemma decodeFrom_plain s : 37 ∉ s -> decodeFrom Plain s = Some s.
Proof.
  induction s as [|u s IH]; intros Hs; [reflexivity|].
  apply not_elem_of_cons in Hs as [Hu Hs].
  cbn [decodeFrom decodeUnit].
  destruct (Z.eqb_spec u 37) as [->|_]; [congruence|].
  by rewrite (IH Hs).
Qed.

Lemma replacePlus_percent s : 37 ∈ replacePlus s -> 37 ∈ s.
Proof.
  unfold replacePlus. induction s as [|u s IH]; [easy|].
  simpl. rewrite !elem_of_cons. intros [H|H]; [|right; by apply IH].
  left. destruct (Z.eqb_spec u 43); [discriminate|assumption].
Qed.

(** X8.  The source key of a record whose key holds no percent sign is
    that key with every [+] turned into a space: decoding does not throw and
    changes nothing else. *)
Theorem sourceKey_without_escapes key :
  37 ∉ key ->
  decodeURIComponent (replacePlus key)
  = Some (List.map (fun u => if u =? 43 then 32 else u) key) /\
  length (replacePlus key) = length key /\
  43 ∉ replacePlus key.
Proof.
  intros Hk. repeat split.
  - apply decodeFrom_plain. intros H. by apply Hk, replacePlus_percent.
  - apply List.length_map.
  - unfold replacePlus. induction key as [|u key IH]; [apply not_elem_of_nil|].
    apply not_elem_of_cons in Hk as [_ Hk]. simpl.
    apply not_elem_of_cons. split; [|by apply IH].
    destruct (Z.eqb_spec u 43); [discriminate|congruence].
Qed.

Lemma sourceKey_without_escapes_photo :
  (37 ∉ js "my+summer+photo.jpg") /\
  decodeURIComponent (replacePlus (js "my+summer+photo.jpg"))
  = Some (js "my summer photo.jpg").
Proof.
  assert (H : 37 ∉ js "my+summer+photo.jpg") by compute_done.
  split; [exact H|exact (proj1 (sourceKey_without_escapes _ H))].
Defined.

End Keys.

(** ** The stream of an object *)

Section Stream.

Implicit Types (chunks : list Buffer) (events : list StreamEvent).

Lemma streamToBufferFrom_data chunks more events :
  streamToBufferFrom chunks (List.map Data more ++ events)
  = streamToBufferFrom (chunks ++ more) events.
Proof.
  revert chunks; induction more as [|c more IH]; intros chunks; simpl.
  - by rewrite app_nil_r.
  - by rewrite IH, <- app_assoc.
Qed.

(** The events split into the chunks before the first event that is not a
    chunk, and the rest. *)
Lemma leading_chunks events :
  exists more rest,
    events = List.map Data more ++ rest /\
    match rest with Data _ :: _ => False | _ => True end.
Proof.
  induction events as [|ev events (more & rest & -> & Hrest)].
  - by exists [], [].
  - destruct ev as [c|e|].
    + by exists (c :: more), rest.
    + by exists [], (StreamError e :: List.map Data more ++ rest).
    + by exists [], (StreamEnd :: List.map Data more ++ rest).
Qed.

Lemma data_prefix_unique m1 m2 (r1 r2 : list StreamEvent) :
  List.map Data m1 ++ r1 = List.map Data m2 ++ r2 ->
  match r1 with Data _ :: _ => False | _ => True end ->
  match r2 with Data _ :: _ => False | _ => True end ->
  m1 = m2 /\ r1 = r2.
Proof.
  revert m2; induction m1 as [|c1 m1 IH]; intros [|c2 m2]; simpl.
  - by intros ->.
  - by intros -> [].
  - by intros <- _ [].
  - intros [= -> H] H1 H2. destruct (IH _ H H1 H2) as [-> ->]. by split.
Qed.

(** X9.  [streamToBuffer] resolves exactly when the stream ends before any
    error, with the chunks emitted before the end joined in order; it
    rejects exactly when an error comes before any end, with that error; and
    it stays pending exactly when the stream has emitted nothing but chunks.
    What the stream emits after the first end or error changes nothing. *)
Theorem streamToBuffer_settles events :
  (forall b, streamToBuffer events = Some (Ok b) <->
     exists more rest,
       events = List.map Data more ++ StreamEnd :: rest /\
       b = List.concat more) /\
  (forall e, streamToBuffer events = Some (Throw e) <->
     exists more rest, events = List.map Data more ++ StreamError e :: rest) /\
  (streamToBuffer events = None <->
     exists more, events = List.map Data more).
Proof.
  unfold streamToBuffer.
  destruct (leading_chunks events) as (more & rest & -> & Hrest).
  rewrite streamToBufferFrom_data. simpl app.
  destruct rest as [|[c|e|] rest]; simpl; [|done|..]; repeat split;
    try (intros [=]);
    try (intros (m & r & H & ?);
         by destruct (data_prefix_unique _ _ _ _ H I I) as [_ [=]]);
    try (intros (m & r & H);
         by destruct (data_prefix_unique _ _ _ _ H I I) as [_ [=]]);
    try (intros (m & H); rewrite <- (app_nil_r (List.map Data m)) in H;
         by destruct (data_prefix_unique _ _ _ _ H I I) as [_ [=]]);
    try done.
  - exists more. by rewrite app_nil_r.
  - subst. by exists more, rest.
  - intros (m & r & H).
    by destruct (data_prefix_unique _ _ _ _ H I I) as [_ [= -> _]].
  - subst. by exists more, rest.
  - intros (m & r & H & ->).
    by destruct (data_prefix_unique _ _ _ _ H I I) as [-> _].
Qed.

Example streamToBuffer_two_chunks :
  streamToBuffer [Data [1; 2]; Data [3]; StreamEnd; Data [4]]
  = Some (Ok [1; 2; 3]).
Proof. reflexivity. Qed.

End Stream.

(** ** The listing *)

Section Listing.

Variable send : nat -> option jsstring -> result ListObjectsV2Output.

Lemma listLoop_follows pages :
  forall fuel n token images,
    follows send n token pages ->
    listLoop send (length pages + fuel) n token images
    = listLoop send fuel (n + length pages) (lastToken token pages)
        (images ++ List.concat (List.map (fun page => imageKeys (Contents page))
                                  pages)).
Proof.
  induction pages as [|page pages IH]; intros fuel n token images Hf.
  - simpl. by rewrite Nat.add_0_r, app_nil_r.
  - destruct Hf as (Hsend & Htoken & Hrest).
    cbn [length Nat.add listLoop]. rewrite Hsend, Htoken.
    rewrite (IH _ _ _ _ Hrest). simpl.
    rewrite <- app_assoc. do 2 f_equal. lia.
Qed.

(** X10.  A listing served in pages: when every page but the last names a
    continuation token, each request carries the token of the page before
    it, and the last page names none (or the empty string), [listAllImages]
    asks for exactly these pages and returns, in order, the keys of their
    objects that are present, not empty and supported. *)
Theorem listAllImagesBy_pages pages final (fuel : nat) :
  follows send 0 None pages ->
  send (length pages) (lastToken None pages) = Ok final ->
  truthyString (NextContinuationToken final) = false ->
  (length pages < fuel)%nat ->
  listAllImagesBy send fuel
  = Some (Ok (List.concat
                (List.map (fun page => imageKeys (Contents page))
                   (pages ++ [final])))).
Proof.
  intros Hf Hsend Hlast Hfuel. unfold listAllImagesBy.
  replace fuel with (length pages + S (fuel - length pages - 1))%nat by lia.
  rewrite (listLoop_follows pages _ 0 None [] Hf).
  cbn [listLoop Nat.add]. rewrite Hsend, Hlast.
  rewrite List.map_app, List.concat_app. simpl. by rewrite app_nil_r.
Qed.

(** X11.  A rejected request rejects the whole listing with its error,
    however many pages came before it: the keys of the earlier pages are
    not returned. *)
Theorem listAllImagesBy_rejected pages e (fuel : nat) :
  follows send 0 None pages ->
  send (length pages) (lastToken None pages) = Throw e ->
  (length pages < fuel)%nat ->
  listAllImagesBy send fuel = Some (Throw e).
Proof.
  intros Hf Hsend Hfuel. unfold listAllImagesBy.
  replace fuel with (length pages + S (fuel - length pages - 1))%nat by lia.
  rewrite (listLoop_follows pages _ 0 None [] Hf).
  cbn [listLoop Nat.add]. by rewrite Hsend.
Qed.

End Listing.

(** The pages of the listing the bulk driver is given are the [Contents] of
    such a run of requests. *)
Lemma listAllImages_pages (W : World) prefix0 pages :
  listedPages W prefix0 = List.map Contents pages ->
  listAllImages W prefix0
  = List.concat (List.map (fun page => imageKeys (Contents page)) pages).
Proof.
  intros H. unfold listAllImages. rewrite H, List.map_map. reflexivity.
Qed.

(** X12.  What is listed: a key is among the listed images exactly when
    some object of some page has it as its key, it is not the empty string
    and it is a supported image.  Objects without a key, and pages without
    [Contents], add nothing. *)
Theorem listAllImages_member (W : World) prefix0 key :
  key ∈ listAllImages W prefix0 <->
  exists objects obj,
    Some objects ∈ listedPages W prefix0 /\ obj ∈ objects /\
    Key obj = Some key /\ key <> [] /\ isSupportedImage key = true.
Proof.
  unfold listAllImages. rewrite list_elem_of_In, in_concat. split.
  - intros (l & Hl & Hkey).
    apply in_map_iff in Hl as ([objects|] & <- & Hpage); [|by destruct Hkey].
    apply list_elem_of_In, list_elem_of_omap in Hkey as (obj & Hobj & Hk).
    exists objects, obj. split; [by apply list_elem_of_In|].
    split; [exact Hobj|].
    unfold listedImage in Hk. destruct (Key obj) as [k|]; [|discriminate].
    destruct (str_eqb k []) eqn:Ee; [discriminate|]. simpl in Hk.
    destruct (isSupportedImage k) eqn:Es; [|discriminate].
    injection Hk as <-. repeat split; [|exact Es].
    intros ->. by rewrite str_eqb_refl in Ee.
  - intros (objects & obj & Hpage & Hobj & Hk & Hne & Hs).
    exists (omap listedImage objects). split.
    + apply in_map_iff. exists (Some objects).
      split; [reflexivity|by apply list_elem_of_In].
    + apply list_elem_of_In, list_elem_of_omap. exists obj.
      split; [exact Hobj|].
      unfold listedImage. rewrite Hk, (str_eqb_neq _ _ Hne), Hs. reflexivity.
Qed.

(** ** One record among the others *)

Section Record.

Variable W : World.

Implicit Types (st : HandlerState) (records : list S3Record) (t : Task).

Lemma eventsOf_app i tr1 tr2 :
  eventsOf i (tr1 ++ tr2) = eventsOf i tr1 ++ eventsOf i tr2.
Proof. apply List.filter_app. Qed.

Lemma eventsOf_own i tr :
  (forall ev, ev ∈ tr -> eventRecord ev = i) -> eventsOf i tr = tr.
Proof.
  induction tr as [|ev tr IH]; intros H; [reflexivity|].
  unfold eventsOf in *. simpl.
  rewrite (H ev) by by left. rewrite Nat.eqb_refl, IH; [reflexivity|].
  intros ev' Hev'. apply H. by right.
Qed.

Lemma eventsOf_other i k tr :
  k <> i -> (forall ev, ev ∈ tr -> eventRecord ev = k) -> eventsOf i tr = [].
Proof.
  intros Hk. induction tr as [|ev tr IH]; intros H; [reflexivity|].
  unfold eventsOf in *. simpl.
  rewrite (H ev) by by left.
  destruct (Nat.eqb_spec k i); [contradiction|].
  apply IH. intros ev' Hev'. apply H. by right.
Qed.

Lemma resumeN_settled i n t :
  isSettled t = true -> resumeN W i n t = (t, []).
Proof.
  intros Ht. induction n as [|n IH]; [reflexivity|].
  cbn [resumeN]. by rewrite (resume_settled W i t Ht), IH.
Qed.

(** The other records leave record [i] alone: after any steps, record [i]
    stands where [n] resumptions of its own bring it, [n] being the number
    of times it was resumed, and its operations are those it made then. *)
Lemma fold_step_record schedule :
  forall st i t,
    tasks st !! i = Some t ->
    tasks (fold_left (step W) schedule st) !! i
    = Some (fst (resumeN W i (resumptions i schedule) t)) /\
    eventsOf i (trace (fold_left (step W) schedule st))
    = eventsOf i (trace st) ++ snd (resumeN W i (resumptions i schedule) t).
Proof.
  induction schedule as [|k schedule IH]; intros st i t Hi.
  - simpl. by rewrite app_nil_r.
  - cbn [fold_left resumptions]. destruct (Nat.eqb_spec k i) as [->|Hk].
    + cbn [Nat.add resumeN].
      assert (Hlt : (i < length (tasks st))%nat) by by eapply lookup_lt_Some.
      destruct (resume W i t) as [t' evs] eqn:Hr.
      assert (Hi' : tasks (step W st i) !! i = Some t').
      { unfold step. rewrite Hi, Hr. simpl.
        by apply list_lookup_insert_eq. }
      assert (Htr : trace (step W st i) = trace st ++ evs).
      { unfold step. by rewrite Hi, Hr. }
      destruct (IH _ _ _ Hi') as [IH1 IH2].
      destruct (resumeN W i (resumptions i schedule) t') as [t'' evs'].
      simpl in *. split; [exact IH1|].
      rewrite IH2, Htr, eventsOf_app, <- app_assoc. do 2 f_equal.
      apply eventsOf_own. intros ev Hev.
      apply (resume_events W i t). by rewrite Hr.
    + cbn [Nat.add].
      assert (Hi' : tasks (step W st k) !! i = Some t)
        by by rewrite step_lookup_ne.
      assert (Htr : eventsOf i (trace (step W st k)) = eventsOf i (trace st)).
      { unfold step. destruct (tasks st !! k) as [tk|]; [|reflexivity].
        destruct (resume W k tk) as [tk' evs] eqn:Hr. simpl.
        rewrite eventsOf_app, (eventsOf_other i k evs Hk), app_nil_r;
          [reflexivity|].
        intros ev Hev. apply (resume_events W k tk). by rewrite Hr. }
      destruct (IH _ _ _ Hi') as [IH1 IH2].
      split; [exact IH1|]. by rewrite IH2, Htr.
Qed.

(** A record that is not there does nothing. *)
Lemma fold_step_absent schedule :
  forall st i,
    tasks st !! i = None ->
    eventsOf i (trace (fold_left (step W) schedule st)) = eventsOf i (trace st).
Proof.
  induction schedule as [|k schedule IH]; intros st i Hi; [reflexivity|].
  cbn [fold_left].
  assert (Hlen : length (tasks (step W st k)) = length (tasks st)).
  { unfold step. destruct (tasks st !! k) as [tk|]; [|reflexivity].
    destruct (resume W k tk). simpl. apply length_insert. }
  rewrite IH.
  - unfold step. destruct (tasks st !! k) as [tk|] eqn:Hk; [|reflexivity].
    destruct (resume W k tk) as [tk' evs] eqn:Hr. simpl.
    rewrite eventsOf_app, (eventsOf_other i k evs), app_nil_r; [reflexivity|..].
    + intros ->. congruence.
    + intros ev Hev. apply (resume_events W k tk). by rewrite Hr.
  - apply lookup_ge_None. rewrite Hlen. by apply lookup_ge_None.
Qed.

Lemma startRecord_own n r ev :
  ev ∈ snd (startRecord W n r) -> eventRecord ev = n.
Proof.
  intros Hev. by destruct (startRecord_events W n r ev Hev) as (key & _ & ->).
Qed.

Lemma startAll_eventsOf records :
  forall n j,
    eventsOf j (snd (startAll W n records))
    = if (j <? n)%nat then []
      else match records !! (j - n)%nat with
           | Some r => snd (startRecord W j r)
           | None => []
           end.
Proof.
  induction records as [|r0 rs IH]; intros n j.
  - simpl. by destruct (j <? n)%nat.
  - simpl. specialize (IH (S n) j).
    destruct (startRecord W n r0) as [t0 evs0] eqn:E0,
      (startAll W (S n) rs) as [ts evs]; simpl in *.
    rewrite eventsOf_app, IH.
    assert (Hown : forall ev, ev ∈ evs0 -> eventRecord ev = n).
    { intros ev Hev. apply (startRecord_own n r0). by rewrite E0. }
    destruct (Nat.ltb_spec j n) as [Hlt|Hge].
    + rewrite (eventsOf_other j n evs0) by (lia || assumption).
      destruct (Nat.ltb_spec j (S n)); [reflexivity|lia].
    + destruct (decide (j = n)) as [->|Hne].
      * rewrite (eventsOf_own n evs0 Hown), Nat.sub_diag. simpl.
        destruct (Nat.ltb_spec n (S n)); [|lia].
        by rewrite E0, app_nil_r.
      * rewrite (eventsOf_other j n evs0) by (lia || assumption).
        destruct (Nat.ltb_spec j (S n)); [lia|].
        replace (j - n)%nat with (S (j - S n)) by lia. reflexivity.
Qed.

(** Record [i] in a run: its state and its operations are those of the
    record started and then resumed as often as the schedule resumes it. *)
Lemma run_record records schedule i r :
  records !! i = Some r ->
  tasks (run W records schedule) !! i
  = Some (fst (resumeN W i (resumptions i schedule)
                 (fst (startRecord W i r)))) /\
  eventsOf i (trace (run W records schedule))
  = snd (startRecord W i r)
    ++ snd (resumeN W i (resumptions i schedule) (fst (startRecord W i r))).
Proof.
  intros Hi. unfold run.
  assert (Hstart : tasks (start W records) !! i
                   = Some (fst (startRecord W i r))).
  { rewrite start_tasks. apply (startAll_lookup W 0 records i r Hi). }
  destruct (fold_step_record schedule _ _ _ Hstart) as [H1 H2].
  split; [exact H1|]. rewrite H2. f_equal.
  rewrite start_trace, startAll_eventsOf. simpl.
  by rewrite Nat.sub_0_r, Hi.
Qed.

Lemma run_absent records schedule i :
  records !! i = None -> eventsOf i (trace (run W records schedule)) = [].
Proof.
  intros Hi. unfold run. rewrite fold_step_absent.
  - rewrite start_trace, startAll_eventsOf. simpl.
    by rewrite Nat.sub_0_r, Hi.
  - rewrite start_tasks. apply lookup_ge_None.
    rewrite startAll_length. by apply lookup_ge_None.
Qed.

Lemma resumeN_S i n t :
  resumeN W i (S n) t
  = (fst (resumeN W i n (fst (resume W i t))),
     snd (resume W i t) ++ snd (resumeN W i n (fst (resume W i t)))).
Proof.
  cbn [resumeN]. destruct (resume W i t) as [t' evs]. cbn [fst snd].
  destruct (resumeN W i n t'). reflexivity.
Qed.

(** Runs the record's function step by step on known answers. *)
Ltac resume_steps :=
  repeat (rewrite resumeN_S; cbn [resume fst snd];
          repeat match goal with
                 | E : ?x = _ |- context [match ?x with _ => _ end] =>
                     rewrite E
                 end;
          cbn [fst snd app]);
  rewrite ?resumeN_settled by reflexivity;
  cbn [fst snd app isSettled].

(** A record that has passed the guards, resumed [n] times: its operations
    so far are the first of those of its outcome; once it is settled, and
    after four resumptions at the latest, it has reached its outcome. *)
Lemma resumeN_outcome i b key n :
  (GetSent i b key :: snd (resumeN W i n (AwaitGet b key)))
    `prefix_of` snd (recordOutcome W i b key) /\
  (isSettled (fst (resumeN W i n (AwaitGet b key))) = true ->
   (fst (resumeN W i n (AwaitGet b key)),
    GetSent i b key :: snd (resumeN W i n (AwaitGet b key)))
   = recordOutcome W i b key) /\
  ((4 <= n)%nat -> isSettled (fst (resumeN W i n (AwaitGet b key))) = true).
Proof.
  unfold recordOutcome.
  destruct (sendGetObject W i b key) as [response|e] eqn:Eg.
  2: { destruct n as [|n]; resume_steps;
         (split; [by eexists|split; [try discriminate; reflexivity|]]);
         try reflexivity; intros; lia. }
  destruct (Body response) as [[originalBuffer|e]|] eqn:Eb.
  2,3: destruct n as [|[|n]]; resume_steps;
         (split; [by eexists|split; [try discriminate; reflexivity|]]);
         try reflexivity; intros; lia.
  destruct (optimizeImage W originalBuffer key) as [optimized|e] eqn:Eo.
  2: { destruct n as [|[|[|n]]]; resume_steps;
         (split; [by eexists|split; [try discriminate; reflexivity|]]);
         try reflexivity; intros; lia. }
  destruct (sendPutObject W i _) as [[]|e] eqn:Ep.
  - destruct n as [|[|[|[|n]]]]; resume_steps;
      (split; [by eexists|split; [try discriminate; reflexivity|]]);
      try reflexivity; intros; lia.
  - destruct n as [|[|[|[|n]]]]; resume_steps;
      (split; [by eexists|split; [try discriminate; reflexivity|]]);
      try reflexivity; intros; lia.
Qed.

Lemma step_length st k : length (tasks (step W st k)) = length (tasks st).
Proof.
  unfold step. destruct (tasks st !! k) as [tk|]; [|reflexivity].
  destruct (resume W k tk). simpl. apply length_insert.
Qed.

Lemma run_length records schedule :
  length (tasks (run W records schedule)) = length records.
Proof.
  unfold run.
  assert (H : forall st, length (tasks (fold_left (step W) schedule st))
                         = length (tasks st)).
  { induction schedule as [|k schedule IH]; intros st; [reflexivity|].
    simpl. by rewrite IH, step_length. }
  rewrite H, start_tasks. apply startAll_length.
Qed.

(** How a record starts: rejected when its key does not decode, fulfilled
    when a guard turns it away, waiting for its fetch otherwise. *)
Lemma startRecord_cases i r :
  (decodeURIComponent (replacePlus (objectKey r)) = None /\
   startRecord W i r = (Rejected URIError, [])) \/
  (exists key,
     decodeURIComponent (replacePlus (objectKey r)) = Some key /\
     (isSupportedImage key = false \/ bucketName r = OPTIMIZED_BUCKET W) /\
     startRecord W i r = (Fulfilled, [])) \/
  (exists key,
     passesGuards W r key /\
     startRecord W i r
     = (AwaitGet (bucketName r) key, [GetSent i (bucketName r) key])).
Proof.
  destruct (decodeURIComponent (replacePlus (objectKey r))) as [key|] eqn:Hd.
  - right. destruct (isSupportedImage key) eqn:Hs.
    + destruct (decide (bucketName r = OPTIMIZED_BUCKET W)) as [Hb|Hb].
      * left. exists key. split; [reflexivity|]. split; [by right|].
        apply (startRecord_guarded W i r key Hd). by right.
      * right. exists key. split; [by repeat split|].
        by apply startRecord_passes.
    + left. exists key. split; [reflexivity|]. split; [by left|].
      apply (startRecord_guarded W i r key Hd). by left.
  - left. split; [reflexivity|]. unfold startRecord. by rewrite Hd.
Qed.

Lemma eventsOf_elem i ev tr :
  ev ∈ tr -> eventRecord ev = i -> ev ∈ eventsOf i tr.
Proof.
  intros Hev Hi. apply list_elem_of_In, filter_In.
  split; [by apply list_elem_of_In|]. by apply Nat.eqb_eq.
Qed.

(** X13.  Records do not interfere.  When the same record sits at the same
    place of two invocations and is resumed equally often in two runs, it is
    in the same state after both and has made the same storage operations
    in the same order, whatever the other records are, whether they fail,
    and however the runs are interleaved. *)
Theorem handler_records_independent (records1 records2 : list S3Record)
    (schedule1 schedule2 : list nat) (i : nat) (r : S3Record) :
  records1 !! i = Some r -> records2 !! i = Some r ->
  resumptions i schedule1 = resumptions i schedule2 ->
  tasks (run W records1 schedule1) !! i = tasks (run W records2 schedule2) !! i /\
  eventsOf i (trace (run W records1 schedule1))
  = eventsOf i (trace (run W records2 schedule2)).
Proof.
  intros H1 H2 Hn.
  destruct (run_record records1 schedule1 i r H1) as [-> ->].
  destruct (run_record records2 schedule2 i r H2) as [-> ->].
  by rewrite Hn.
Qed.

(** X14.  The handler ends.  Once every record has been resumed four
    times, every record's promise is settled and the handler has its
    result: it has resolved exactly when every record's promise is
    fulfilled, and it has failed otherwise. *)
Theorem handler_settles (records : list S3Record) (schedule : list nat) :
  (forall i, (i < length records)%nat -> (4 <= resumptions i schedule)%nat) ->
  (forall i t, tasks (run W records schedule) !! i = Some t ->
     isSettled t = true) /\
  join (run W records schedule) <> Pending /\
  (join (run W records schedule) = Resolved <->
   forall i t, tasks (run W records schedule) !! i = Some t -> t = Fulfilled).
Proof.
  intros Hfour.
  assert (Hsettled : forall i t, tasks (run W records schedule) !! i = Some t ->
                       isSettled t = true).
  { intros i t Hi.
    assert (Hlt : (i < length records)%nat).
    { rewrite <- (run_length records schedule). by eapply lookup_lt_Some. }
    destruct (lookup_lt_is_Some_2 records i Hlt) as [r Hr].
    destruct (run_record records schedule i r Hr) as [Ht _].
    rewrite Ht in Hi. injection Hi as <-.
    destruct (startRecord_cases i r)
      as [[_ ->]|[(key & _ & _ & ->)|(key & _ & ->)]]; simpl.
    - by rewrite resumeN_settled.
    - by rewrite resumeN_settled.
    - by apply (resumeN_outcome i (bucketName r) key), Hfour. }
  pose proof (run_joinInv W records schedule) as Hinv. unfold joinInv in Hinv.
  split; [exact Hsettled|]. split.
  - intros Hp. rewrite Hp in Hinv. destruct Hinv as [Hno Hnot].
    assert (forallb isFulfilled (tasks (run W records schedule)) = true);
      [|congruence].
    apply forallb_lookup. intros i t Hi.
    specialize (Hsettled i t Hi). destruct t; try discriminate; [reflexivity|].
    by apply Hno in Hi.
  - split.
    + intros Hr. rewrite Hr in Hinv. intros i t Hi.
      assert (isFulfilled t = true) by (eapply forallb_lookup; eassumption).
      by destruct t.
    + intros Hall. destruct (join (run W records schedule)) as [| |e] eqn:Hj;
        [|reflexivity|].
      * destruct Hinv as [_ Hnot].
        assert (forallb isFulfilled (tasks (run W records schedule)) = true);
          [|congruence].
        apply forallb_lookup. intros i t Hi. by rewrite (Hall i t Hi).
      * destruct Hinv as [i Hi]. by specialize (Hall i _ Hi).
Qed.

(** X15.  What becomes of a record that passes the guards.  After four
    resumptions it has reached the outcome of its [try] block, in every run:
    a rejected fetch, a missing body, a failed stream or an error of sharp
    rejects the record with that error after the one fetch, and nothing is
    stored; a rejected store rejects it after the fetch and the one store;
    otherwise it is fulfilled after the fetch, the store and its
    completion.  No operation is tried twice. *)
Theorem handler_record_outcome (records : list S3Record) (schedule : list nat)
    (i : nat) (r : S3Record) (key : jsstring) :
  records !! i = Some r ->
  passesGuards W r key ->
  (4 <= resumptions i schedule)%nat ->
  tasks (run W records schedule) !! i
  = Some (fst (recordOutcome W i (bucketName r) key)) /\
  eventsOf i (trace (run W records schedule))
  = snd (recordOutcome W i (bucketName r) key).
Proof.
  intros Hi Hp Hfour.
  destruct (run_record records schedule i r Hi) as [-> ->].
  rewrite (startRecord_passes W i r key Hp). cbn [fst snd app].
  destruct (resumeN_outcome i (bucketName r) key (resumptions i schedule))
    as (_ & Hout & Hset).
  rewrite <- (Hout (Hset Hfour)). by split.
Qed.

(** X16.  A key that does not decode.  When the key of a record is not
    well-formed percent-encoding, [decodeURIComponent] throws before the
    guards and outside the [try]: in every run the record's promise is
    rejected with [URIError], the record makes no fetch and no store, and
    the handler fails, whatever bucket the record names. *)
Theorem handler_undecodable (records : list S3Record) (schedule : list nat)
    (i : nat) (r : S3Record) :
  records !! i = Some r ->
  decodeURIComponent (replacePlus (objectKey r)) = None ->
  tasks (run W records schedule) !! i = Some (Rejected URIError) /\
  eventsOf i (trace (run W records schedule)) = [] /\
  exists e, join (run W records schedule) = Failed e.
Proof.
  intros Hi Hd.
  destruct (run_record records schedule i r Hi) as [Ht Hev].
  assert (Hs : startRecord W i r = (Rejected URIError, []))
    by (unfold startRecord; by rewrite Hd).
  rewrite Hs in Ht, Hev. simpl in Ht, Hev.
  rewrite resumeN_settled in Ht, Hev by reflexivity.
  split; [exact Ht|]. split; [exact Hev|].
  pose proof (run_joinInv W records schedule) as Hinv. unfold joinInv in Hinv.
  destruct (join (run W records schedule)) as [| |e].
  - destruct Hinv as [Hno _]. by apply Hno in Ht.
  - assert (isFulfilled (Rejected URIError) = true)
      by (eapply forallb_lookup; eassumption).
    discriminate.
  - by exists e.
Qed.

Lemma recordOutcome_shape i b key :
  exists command,
    snd (recordOutcome W i b key)
      `prefix_of` [GetSent i b key; PutSent i command; PutDone i] /\
    (PutSent i command ∈ snd (recordOutcome W i b key) ->
     exists response originalBuffer optimized,
       sendGetObject W i b key = Ok response /\
       Body response = Some (Ok originalBuffer) /\
       optimizeImage W originalBuffer key = Ok optimized /\
       command = handlerPut W i key (GetMetadata response) originalBuffer
                   optimized) /\
    (forall c, PutSent i c ∈ snd (recordOutcome W i b key) -> c = command).
Proof.
  unfold recordOutcome.
  set (dummy := {| PutBucket := []; PutKey := []; PutBody := [];
                   ContentType := []; PutMetadata := ∅; CacheControl := [] |}).
  assert (Hnone : forall c, PutSent i c ∈ [GetSent i b key] -> False).
  { intros c Hc. apply list_elem_of_singleton in Hc. discriminate. }
  destruct (sendGetObject W i b key) as [response|e] eqn:Eg;
    [|exists dummy; split; [by eexists|split; intros; by exfalso; eauto]].
  destruct (Body response) as [[originalBuffer|e]|] eqn:Eb;
    [|exists dummy; split; [by eexists|split; intros; by exfalso; eauto]..].
  destruct (optimizeImage W originalBuffer key) as [optimized|e] eqn:Eo;
    [|exists dummy; split; [by eexists|split; intros; by exfalso; eauto]].
  exists (handlerPut W i key (GetMetadata response) originalBuffer optimized).
  assert (Hsame : forall c l,
            PutSent i c
              ∈ GetSent i b key
                :: PutSent i (handlerPut W i key (GetMetadata response)
                                originalBuffer optimized) :: l ->
            (forall c', PutSent i c' ∈ l -> False) ->
            c = handlerPut W i key (GetMetadata response) originalBuffer
                  optimized).
  { intros c l Hc Hl. apply elem_of_cons in Hc as [Hc|Hc]; [discriminate|].
    apply elem_of_cons in Hc as [Hc|Hc]; [by injection Hc|].
    by apply Hl in Hc. }
  destruct (sendPutObject W i _) as [[]|e]; (split; [by eexists|]); split.
  - intros _. by exists response, originalBuffer, optimized.
  - intros c Hc. apply (Hsame c _ Hc). intros c' Hc'.
    apply list_elem_of_singleton in Hc'. discriminate.
  - intros _. by exists response, originalBuffer, optimized.
  - intros c Hc. apply (Hsame c _ Hc). intros c' Hc'.
    by apply elem_of_nil in Hc'.
Qed.

(** X17.  No retries.  In every run, the storage operations of a record
    that passes the guards begin with its one fetch and go on with at most
    one store and its completion, in this order: they are the first of
    fetch, store, completion. *)
Theorem handler_no_retries (records : list S3Record) (schedule : list nat)
    (i : nat) (r : S3Record) (key : jsstring) :
  records !! i = Some r ->
  passesGuards W r key ->
  head (eventsOf i (trace (run W records schedule)))
  = Some (GetSent i (bucketName r) key) /\
  exists command,
    eventsOf i (trace (run W records schedule))
      `prefix_of` [GetSent i (bucketName r) key; PutSent i command; PutDone i].
Proof.
  intros Hi Hp.
  destruct (run_record records schedule i r Hi) as [_ ->].
  rewrite (startRecord_passes W i r key Hp). cbn [fst snd app].
  split; [reflexivity|].
  destruct (resumeN_outcome i (bucketName r) key (resumptions i schedule))
    as (Hpre & _).
  destruct (recordOutcome_shape i (bucketName r) key) as (command & Hshape & _).
  exists command. by etrans.
Qed.

(** X18.  What is stored, and where.  Every store of every run is made for
    a record that passes the guards: its bucket is not the optimized bucket
    and its decoded key is a supported image.  The store goes to the
    optimized bucket, under the key derived from the record's decoded key
    and the stored content type, which is [image/png] or [image/webp], with
    the one-year cache directive. *)
Theorem handler_stores_only_optimized (records : list S3Record)
    (schedule : list nat) (i : nat) (command : PutObjectInput) :
  PutSent i command ∈ trace (run W records schedule) ->
  exists r key,
    records !! i = Some r /\ passesGuards W r key /\
    PutBucket command = OPTIMIZED_BUCKET W /\
    PutKey command = generateOptimizedKey key (ContentType command) /\
    (ContentType command = js "image/png" \/
     ContentType command = js "image/webp") /\
    CacheControl command = js "public, max-age=31536000".
Proof.
  intros Hin. apply (eventsOf_elem i) in Hin; [|reflexivity].
  destruct (records !! i) as [r|] eqn:Hi;
    [|rewrite (run_absent records schedule i Hi) in Hin;
      by apply elem_of_nil in Hin].
  destruct (run_record records schedule i r Hi) as [_ Hev].
  rewrite Hev in Hin. clear Hev.
  destruct (startRecord_cases i r)
    as [[_ Hs]|[(key & _ & _ & Hs)|(key & Hp & Hs)]]; rewrite Hs in Hin;
    cbn [fst snd app] in Hin.
  1,2: rewrite resumeN_settled in Hin by reflexivity;
       by apply elem_of_nil in Hin.
  exists r, key. split; [reflexivity|]. split; [exact Hp|].
  destruct (resumeN_outcome i (bucketName r) key (resumptions i schedule))
    as ([rest Hpre] & _).
  assert (Hout : PutSent i command ∈ snd (recordOutcome W i (bucketName r) key)).
  { rewrite Hpre. apply elem_of_app. by left. }
  destruct (recordOutcome_shape i (bucketName r) key)
    as (c & _ & Hmade & Hsame).
  pose proof (Hsame _ Hout) as Hc. subst command.
  destruct (Hmade Hout) as (response & buf & optimized & _ & _ & Ho & ->).
  simpl. repeat split.
  destruct (optimizeImage_result W buf key optimized Ho)
    as (metadata & _ & _ & _ & ->).
  unfold chosenContentType. destruct (_ && _); [by left|by right].
Qed.

End Record.

(** ** One worker among the others *)

Section Journal.

Variable W : World.
Variable send : jsstring -> nat -> option jsstring -> result ListObjectsV2Output.

Implicit Types (s : RunState) (key : jsstring) (id : nat).

Lemma probe_journal id key s :
  exists s',
    optimizedVersionExists W id key s = (Ok (alreadyOptimized W id key), s') /\
    started s' = started s /\ stats s' = stats s /\
    journal s' = journal s ++ probeEvents W id key.
Proof.
  unfold optimizedVersionExists, alreadyOptimized, probeEvents, probeKeys,
    tryCatch, bind, emit, await, ret.
  simpl.
  destruct (sendGetObject W id (OPTIMIZED_BUCKET W)
              (generateOptimizedKey key (js "image/webp"))); simpl.
  - eexists. split; [reflexivity|]. by repeat split.
  - destruct (sendGetObject W id (OPTIMIZED_BUCKET W)
                (generateOptimizedKey key (js "image/png"))); simpl;
      (eexists; split; [reflexivity|]; simpl; repeat split;
       by rewrite <- app_assoc).
Qed.

Lemma direct_journal id key s :
  exists s',
    processImageDirect W id key s = (Ok tt, s') /\
    started s' = started s /\
    journal s' = journal s
                 ++ ProcessingItem id key :: Fetched id key
                    :: storeEvents W id key.
Proof.
  unfold processImageDirect, storeEvents, tryCatch, bind, emit, await,
    updateStats, throw.
  simpl.
  destruct (sendGetObject W id (SOURCE_BUCKET W) key) as [response|e]; simpl.
  2: { eexists. split; [reflexivity|]. simpl. split; [reflexivity|].
       by rewrite <- app_assoc. }
  destruct (Body response) as [[originalBuffer|e]|]; simpl.
  2,3: eexists; (split; [reflexivity|]); simpl; (split; [reflexivity|]);
       by rewrite <- app_assoc.
  destruct (optimizeImage W originalBuffer key) as [optimized|e]; simpl.
  2: { eexists. split; [reflexivity|]. simpl. split; [reflexivity|].
       by rewrite <- app_assoc. }
  destruct (sendPutObject W id _) as [[]|e]; simpl;
    (eexists; split; [reflexivity|]; simpl; split; [reflexivity|];
     by rewrite <- !app_assoc).
Qed.

Lemma lambda_journal id key s :
  exists s',
    processImageViaLambda W id key s = (Ok tt, s') /\
    started s' = started s /\
    journal s' = journal s
                 ++ [ProcessingItem id key; Copied id (copyCommand W id key)] /\
    totalSizeBefore (stats s') = totalSizeBefore (stats s) /\
    totalSizeAfter (stats s') = totalSizeAfter (stats s).
Proof.
  unfold processImageViaLambda, tryCatch, bind, emit, await, updateStats.
  simpl.
  destruct (sendCopyObject W id (copyCommand W id key)) as [[]|e]; simpl;
    (eexists; split; [reflexivity|]; simpl; repeat split;
     by rewrite <- app_assoc).
Qed.

(** The function mapped over a batch starts one worker, which does
    [workerEvents]; with [useLambda] it leaves the size totals alone. *)
Lemma processItem_journal (sk ul : bool) key s :
  exists s',
    processItem W sk ul key s = (Ok tt, s') /\
    started s' = S (started s) /\
    journal s' = journal s ++ workerEvents W sk ul (started s) key /\
    (ul = true ->
     totalSizeBefore (stats s') = totalSizeBefore (stats s) /\
     totalSizeAfter (stats s') = totalSizeAfter (stats s)).
Proof.
  unfold processItem, newWorker, bind at 1 2. simpl.
  set (s1 := {| stats := stats s; started := S (started s);
                journal := journal s |}).
  assert (Hprobe : exists s2,
            (if sk then optimizedVersionExists W (started s) key
             else ret false) s1
            = (Ok (skips W sk (started s) key), s2) /\
            started s2 = S (started s) /\ stats s2 = stats s /\
            journal s2 = journal s
                         ++ (if sk then probeEvents W (started s) key else [])).
  { unfold skips. destruct sk; simpl.
    - apply (probe_journal (started s) key s1).
    - exists s1. by rewrite app_nil_r. }
  destruct Hprobe as (s2 & -> & Hst & Hstats & Hj).
  unfold workerEvents. rewrite app_assoc, <- Hj.
  destruct (skips W sk (started s) key); simpl.
  - unfold bind, emit, updateStats; simpl. eexists. split; [reflexivity|].
    simpl. rewrite Hstats. by repeat split.
  - destruct ul.
    + destruct (lambda_journal (started s) key s2)
        as (s3 & -> & Hst3 & Hj3 & Hb & Ha).
      exists s3. split; [reflexivity|]. rewrite Hst3, Hj3, Hb, Ha, Hstats.
      by repeat split.
    + destruct (direct_journal (started s) key s2) as (s3 & -> & Hst3 & Hj3).
      exists s3. split; [reflexivity|]. rewrite Hst3, Hj3.
      by repeat split.
Qed.

Lemma processBatch_journal (sk ul : bool) (batch : list jsstring) s :
  exists s',
    processBatch W sk ul batch s = (Ok tt, s') /\
    started s' = (started s + length batch)%nat /\
    journal s' = journal s ++ eventsFrom W sk ul (started s) batch /\
    (ul = true ->
     totalSizeBefore (stats s') = totalSizeBefore (stats s) /\
     totalSizeAfter (stats s') = totalSizeAfter (stats s)).
Proof.
  revert s; induction batch as [|key rest IH]; intros s.
  - exists s. split; [reflexivity|]. simpl. rewrite app_nil_r.
    repeat split. lia.
  - cbn [processBatch]. unfold bind.
    destruct (processItem_journal sk ul key s) as (s1 & -> & Hst1 & Hj1 & Hz1).
    destruct (IH s1) as (s2 & -> & Hst2 & Hj2 & Hz2).
    exists s2. split; [reflexivity|].
    rewrite Hst2, Hj2, Hst1, Hj1. cbn [eventsFrom length].
    split; [lia|]. split; [by rewrite <- app_assoc|].
    intros Hul. destruct (Hz1 Hul) as [<- <-]. by apply Hz2.
Qed.

Lemma withoutDelays_app (j1 j2 : list DriverEvent) :
  withoutDelays (j1 ++ j2) = withoutDelays j1 ++ withoutDelays j2.
Proof. apply List.filter_app. Qed.

Lemma withoutDelays_workerEvents (sk ul : bool) id key :
  withoutDelays (workerEvents W sk ul id key) = workerEvents W sk ul id key.
Proof.
  unfold workerEvents, probeEvents, storeEvents.
  rewrite withoutDelays_app. f_equal.
  - destruct sk; [|reflexivity]. simpl. by destruct (isOk _).
  - destruct (skips W sk id key); [reflexivity|]. destruct ul; [reflexivity|].
    simpl. do 2 f_equal.
    destruct (sendGetObject W id (SOURCE_BUCKET W) key) as [response|];
      [|reflexivity].
    destruct (Body response) as [[originalBuffer|]|]; [|reflexivity..].
    by destruct (optimizeImage W originalBuffer key).
Qed.

Lemma withoutDelays_eventsFrom (sk ul : bool) id (l : list jsstring) :
  withoutDelays (eventsFrom W sk ul id l) = eventsFrom W sk ul id l.
Proof.
  revert id; induction l as [|key l IH]; intros id; [reflexivity|].
  cbn [eventsFrom]. by rewrite withoutDelays_app, withoutDelays_workerEvents, IH.
Qed.

Lemma eventsFrom_app (sk ul : bool) id (l1 l2 : list jsstring) :
  eventsFrom W sk ul id (l1 ++ l2)
  = eventsFrom W sk ul id l1 ++ eventsFrom W sk ul (id + length l1) l2.
Proof.
  revert id; induction l1 as [|key l1 IH]; intros id; simpl.
  - by rewrite Nat.add_0_r.
  - rewrite IH, <- app_assoc.
    by replace (S id + length l1)%nat with (id + S (length l1))%nat by lia.
Qed.

(** The loop over the batches, for a positive batch size: apart from the
    delays, a run that has ended has done what its workers do, one listed
    image after the other. *)
Lemma batchLoop_journal (sk ul : bool) (B D : Z) (all : list jsstring) :
  0 < B ->
  forall (fuel : nat) (i : Z) s r s',
    0 <= i ->
    Z.of_nat (started s) = Z.min i (Z.of_nat (length all)) ->
    batchLoop W sk ul B D all fuel i s = Some (r, s') ->
    withoutDelays (journal s')
    = withoutDelays (journal s)
      ++ eventsFrom W sk ul (started s) (drop (started s) all) /\
    (ul = true ->
     totalSizeBefore (stats s') = totalSizeBefore (stats s) /\
     totalSizeAfter (stats s') = totalSizeAfter (stats s)).
Proof.
  intros HB. induction fuel as [|fuel IH]; intros i s r s' Hi Hst Hrun;
    [discriminate|].
  cbn [batchLoop] in Hrun.
  destruct (Z.ltb_spec i (Z.of_nat (length all))) as [Hlt|Hge].
  - rewrite slice_window in Hrun by lia.
    assert (Hn : Z.to_nat i = started s) by lia. rewrite Hn in Hrun.
    set (batch := take (Z.to_nat B) (drop (started s) all)) in *.
    unfold bind in Hrun.
    destruct (processBatch_journal sk ul batch s) as (s1 & E1 & Hst1 & Hj1 & Hz1).
    rewrite E1 in Hrun.
    assert (Hlen : Z.of_nat (length batch)
                   = Z.min B (Z.of_nat (length all) - i)).
    { unfold batch. rewrite length_take, length_drop. lia. }
    assert (Hpause : exists s2,
              (if (i + B <? Z.of_nat (length all)) && (0 <? D)
               then emit (Delayed D) else ret tt) s1 = (Ok tt, s2) /\
              started s2 = started s1 /\ stats s2 = stats s1 /\
              withoutDelays (journal s2) = withoutDelays (journal s1)).
    { destruct ((i + B <? Z.of_nat (length all)) && (0 <? D));
        eexists; (split; [reflexivity|]); simpl; repeat split.
      rewrite withoutDelays_app. simpl. by rewrite app_nil_r. }
    destruct Hpause as (s2 & E2 & Hst2 & Hstats2 & Hj2).
    rewrite E2 in Hrun.
    destruct (IH (i + B) s2 r s') as [Hj Hz]; [lia|lia|exact Hrun|].
    split.
    + rewrite Hj, Hj2, Hj1, withoutDelays_app, withoutDelays_eventsFrom.
      rewrite <- app_assoc. f_equal.
      rewrite Hst2, Hst1.
      assert (Hsplit : drop (started s) all
                       = batch ++ drop (started s + length batch) all).
      { etrans; [symmetry; apply (take_drop (Z.to_nat B))|].
        fold batch. f_equal. rewrite drop_drop.
        destruct (Z.le_gt_cases B (Z.of_nat (length all) - i)).
        - f_equal. lia.
        - rewrite !drop_ge by lia. reflexivity. }
      rewrite (f_equal (eventsFrom W sk ul (started s)) Hsplit).
      by rewrite eventsFrom_app.
    + intros Hul. destruct (Hz Hul) as [-> ->]. rewrite Hstats2.
      by apply Hz1.
  - injection Hrun as _ <-.
    assert (Hn : started s = length all) by lia.
    rewrite Hn, drop_all. simpl. by rewrite app_nil_r.
Qed.

(** The whole loop over the listed images [all], for a positive batch size
    and fuel for one iteration more than there are images. *)
Lemma batchLoop_whole (sk ul : bool) (B D : Z) (all : list jsstring)
    (fuel : nat) :
  0 < B ->
  Z.of_nat (length all) < Z.of_nat fuel ->
  exists s',
    batchLoop W sk ul B D all fuel 0
      {| stats := setTotal (Z.of_nat (length all)) noStats; started := 0;
         journal := [] |}
    = Some (Ok tt, s') /\
    withoutDelays (journal s') = eventsFrom W sk ul 0 all /\
    (ul = true ->
     totalSizeBefore (stats s') = 0 /\ totalSizeAfter (stats s') = 0) /\
    skipped (stats s') = countFrom (skips W sk) 0 all /\
    countProcessing (journal s') = countFrom (dispatched W sk) 0 all.
Proof.
  intros HB Hfuel.
  destruct (batchLoop_run W sk ul B D all HB fuel 0
              {| stats := setTotal (Z.of_nat (length all)) noStats;
                 started := 0; journal := [] |})
    as (s' & Hrun & _ & _ & Hk & _ & _ & Hc & _);
    [lia|simpl; lia|lia|by intros _ ms|].
  exists s'. split; [exact Hrun|].
  apply (batchLoop_journal _ _ _ _ _ HB) in Hrun as [Hj Hz];
    [|lia|simpl; lia].
  simpl in Hj, Hz, Hk, Hc. rewrite drop_0 in *.
  by repeat split; try apply Hz.
Qed.

(** Once the listing has returned, the run is the loop over what it
    listed. *)
Lemma processExistingImagesBy_listed (options : Options) (listFuel fuel : nat)
    (all : list jsstring) :
  listAllImagesBy (send (default [] (prefix options))) listFuel
  = Some (Ok all) ->
  processExistingImagesBy send W options listFuel fuel
  = batchLoop W (default true (skipExisting options))
      (default false (useLambda options)) (default 10 (batchSize options))
      (default 1000 (delayBetweenBatches options)) all fuel 0
      {| stats := setTotal (Z.of_nat (length all)) noStats; started := 0;
         journal := [] |}.
Proof. intros H. unfold processExistingImagesBy. by rewrite H. Qed.

(** A whole run whose listing has returned [all]. *)
Lemma processExistingImagesBy_journal (options : Options)
    (listFuel fuel : nat) (all : list jsstring) :
  listAllImagesBy (send (default [] (prefix options))) listFuel
  = Some (Ok all) ->
  0 < default 10 (batchSize options) ->
  Z.of_nat (length all) < Z.of_nat fuel ->
  exists s',
    processExistingImagesBy send W options listFuel fuel = Some (Ok tt, s') /\
    withoutDelays (journal s')
    = eventsFrom W (default true (skipExisting options))
        (default false (useLambda options)) 0 all /\
    (default false (useLambda options) = true ->
     totalSizeBefore (stats s') = 0 /\ totalSizeAfter (stats s') = 0) /\
    skipped (stats s')
    = countFrom (skips W (default true (skipExisting options))) 0 all /\
    countProcessing (journal s')
    = countFrom (dispatched W (default true (skipExisting options))) 0 all.
Proof.
  intros Hlist HB Hfuel.
  rewrite (processExistingImagesBy_listed options listFuel fuel all Hlist).
  by apply batchLoop_whole.
Qed.

(** Only supported images are listed, page by page. *)
Lemma listLoop_supported (fuel : nat) :
  forall (list0 : nat -> option jsstring -> result ListObjectsV2Output)
         (n : nat) token images all,
    (forall key, key ∈ images -> isSupportedImage key = true) ->
    listLoop list0 fuel n token images = Some (Ok all) ->
    forall key, key ∈ all -> isSupportedImage key = true.
Proof.
  induction fuel as [|fuel IH]; intros list0 n token images all Him Hrun;
    [discriminate|].
  cbn [listLoop] in Hrun.
  destruct (list0 n token) as [response|e]; [|discriminate].
  assert (Him' : forall key,
            key ∈ images ++ imageKeys (Contents response) ->
            isSupportedImage key = true).
  { intros key Hkey. apply elem_of_app in Hkey as [Hkey|Hkey]; [by apply Him|].
    unfold imageKeys in Hkey.
    destruct (Contents response) as [objects|]; [|by apply elem_of_nil in Hkey].
    apply list_elem_of_omap in Hkey as (obj & _ & Hobj).
    unfold listedImage in Hobj. destruct (Key obj) as [k|]; [|discriminate].
    destruct (negb (str_eqb k [])); [|discriminate]. simpl in Hobj.
    destruct (isSupportedImage k) eqn:E; [|discriminate].
    by injection Hobj as <-. }
  destruct (truthyString (NextContinuationToken response)).
  - by apply (IH _ _ _ _ _ Him' Hrun).
  - injection Hrun as <-. exact Him'.
Qed.

Lemma listAllImagesBy_supported
    (list0 : nat -> option jsstring -> result ListObjectsV2Output)
    (fuel : nat) (all : list jsstring) key :
  listAllImagesBy list0 fuel = Some (Ok all) ->
  key ∈ all -> isSupportedImage key = true.
Proof.
  intros Hrun. apply (listLoop_supported fuel list0 0 None [] all); [|exact Hrun].
  intros k Hk. by apply elem_of_nil in Hk.
Qed.

Lemma eventsOfWorker_app id (j1 j2 : list DriverEvent) :
  eventsOfWorker id (j1 ++ j2) = eventsOfWorker id j1 ++ eventsOfWorker id j2.
Proof. apply List.filter_app. Qed.

Lemma eventsOfWorker_withoutDelays id (j : list DriverEvent) :
  eventsOfWorker id (withoutDelays j) = eventsOfWorker id j.
Proof.
  induction j as [|ev j IH]; [reflexivity|].
  destruct ev; simpl; unfold eventsOfWorker in *; simpl;
    rewrite ?IH; try reflexivity; exact IH.
Qed.

(** Every event of worker [k] bears its number. *)
Lemma workerEvents_worker (sk ul : bool) k key ev :
  ev ∈ workerEvents W sk ul k key -> eventWorker ev = Some k.
Proof.
  unfold workerEvents, probeEvents, storeEvents. intros H.
  apply elem_of_app in H as [H|H].
  - destruct sk; [|by apply elem_of_nil in H].
    apply elem_of_cons in H as [->|H]; [reflexivity|].
    destruct (isOk _); [by apply elem_of_nil in H|].
    by apply list_elem_of_singleton in H as ->.
  - destruct (skips W sk k key);
      [by apply list_elem_of_singleton in H as ->|].
    apply elem_of_cons in H as [->|H]; [reflexivity|].
    destruct ul; [by apply list_elem_of_singleton in H as ->|].
    apply elem_of_cons in H as [->|H]; [reflexivity|].
    destruct (sendGetObject W k (SOURCE_BUCKET W) key) as [response|];
      [|by apply elem_of_nil in H].
    destruct (Body response) as [[originalBuffer|]|];
      [|by apply elem_of_nil in H..].
    destruct (optimizeImage W originalBuffer key);
      [|by apply elem_of_nil in H].
    by apply list_elem_of_singleton in H as ->.
Qed.

Lemma eventsOfWorker_own (sk ul : bool) id key :
  eventsOfWorker id (workerEvents W sk ul id key) = workerEvents W sk ul id key.
Proof.
  pose proof (workerEvents_worker sk ul id key) as H.
  induction (workerEvents W sk ul id key) as [|ev l IH]; [reflexivity|].
  unfold eventsOfWorker in *. simpl.
  rewrite (H ev) by by left. rewrite Nat.eqb_refl, IH; [reflexivity|].
  intros ev' Hev'. apply H. by right.
Qed.

Lemma eventsOfWorker_other (sk ul : bool) id k key :
  k <> id -> eventsOfWorker id (workerEvents W sk ul k key) = [].
Proof.
  intros Hk. pose proof (workerEvents_worker sk ul k key) as H.
  induction (workerEvents W sk ul k key) as [|ev l IH]; [reflexivity|].
  unfold eventsOfWorker in *. simpl.
  rewrite (H ev) by by left.
  destruct (Nat.eqb_spec k id); [contradiction|].
  apply IH. intros ev' Hev'. apply H. by right.
Qed.

Lemma eventsOfWorker_eventsFrom (sk ul : bool) id (l : list jsstring) :
  forall n,
    eventsOfWorker id (eventsFrom W sk ul n l)
    = if (n <=? id)%nat
      then match l !! (id - n)%nat with
           | Some key => workerEvents W sk ul id key
           | None => []
           end
      else [].
Proof.
  induction l as [|key l IH]; intros n.
  - simpl. by destruct (n <=? id)%nat.
  - cbn [eventsFrom]. rewrite eventsOfWorker_app, IH.
    destruct (Nat.leb_spec n id) as [Hle|Hgt].
    + destruct (decide (n = id)) as [->|Hne].
      * rewrite eventsOfWorker_own, Nat.sub_diag.
        destruct (Nat.leb_spec (S id) id); [lia|]. simpl.
        by rewrite app_nil_r.
      * rewrite eventsOfWorker_other by exact Hne.
        destruct (Nat.leb_spec (S n) id); [|lia].
        replace (id - n)%nat with (S (id - S n)) by lia. reflexivity.
    + rewrite eventsOfWorker_other by lia.
      destruct (Nat.leb_spec (S n) id); [lia|]. reflexivity.
Qed.

Lemma elem_of_eventsFrom (sk ul : bool) ev (l : list jsstring) :
  forall n,
    ev ∈ eventsFrom W sk ul n l ->
    exists k key, l !! k = Some key /\ ev ∈ workerEvents W sk ul (n + k) key.
Proof.
  induction l as [|key l IH]; intros n H; [by apply elem_of_nil in H|].
  cbn [eventsFrom] in H. apply elem_of_app in H as [H|H].
  - exists 0%nat, key. by rewrite Nat.add_0_r.
  - destruct (IH _ H) as (k & key' & Hk & Hev).
    exists (S k), key'. split; [exact Hk|].
    by replace (n + S k)%nat with (S n + k)%nat by lia.
Qed.

(** What a run does for a worker is in the journal without its delays. *)
Lemma elem_of_withoutDelays ev (j : list DriverEvent) :
  ev ∈ j -> (forall ms, ev <> Delayed ms) -> ev ∈ withoutDelays j.
Proof.
  intros Hev Hnot. apply list_elem_of_In, filter_In.
  split; [by apply list_elem_of_In|].
  destruct ev; try reflexivity. by destruct (Hnot ms).
Qed.

(** What one worker may do, case by case. *)
Lemma workerEvents_elem (sk ul : bool) k key ev :
  ev ∈ workerEvents W sk ul k key ->
  (ev = Probed k (generateOptimizedKey key (js "image/webp")) /\ sk = true) \/
  (ev = Probed k (generateOptimizedKey key (js "image/png")) /\ sk = true /\
   isOk (sendGetObject W k (OPTIMIZED_BUCKET W)
           (generateOptimizedKey key (js "image/webp"))) = false) \/
  (ev = SkippedItem k key /\ skips W sk k key = true) \/
  (ev = ProcessingItem k key /\ skips W sk k key = false) \/
  (ev = Copied k (copyCommand W k key) /\ ul = true /\
   skips W sk k key = false) \/
  (ev = Fetched k key /\ ul = false /\ skips W sk k key = false) \/
  (exists response originalBuffer optimized,
     ev = Stored k (directPut W k key (GetMetadata response) originalBuffer
                      optimized) /\
     ul = false /\ skips W sk k key = false /\
     sendGetObject W k (SOURCE_BUCKET W) key = Ok response /\
     Body response = Some (Ok originalBuffer) /\
     optimizeImage W originalBuffer key = Ok optimized).
Proof.
  unfold workerEvents, probeEvents, storeEvents. intros H.
  apply elem_of_app in H as [H|H].
  - destruct sk; [|by apply elem_of_nil in H].
    apply elem_of_cons in H as [->|H]; [by left|].
    destruct (isOk _) eqn:E; [by apply elem_of_nil in H|].
    apply list_elem_of_singleton in H as ->. right. by left.
  - destruct (skips W sk k key) eqn:Es.
    { apply list_elem_of_singleton in H as ->. do 2 right. by left. }
    apply elem_of_cons in H as [->|H]; [do 3 right; by left|].
    destruct ul.
    { apply list_elem_of_singleton in H as ->. do 4 right. by left. }
    apply elem_of_cons in H as [->|H]; [do 5 right; by left|].
    do 6 right.
    destruct (sendGetObject W k (SOURCE_BUCKET W) key) as [response|];
      [|by apply elem_of_nil in H].
    destruct (Body response) as [[originalBuffer|]|] eqn:Eb;
      [|by apply elem_of_nil in H..].
    destruct (optimizeImage W originalBuffer key) as [optimized|] eqn:Eo;
      [|by apply elem_of_nil in H].
    apply list_elem_of_singleton in H as ->.
    by exists response, originalBuffer, optimized.
Qed.

(** Every event of a journal that, without its delays, is what the workers
    of [all] do, is one of a worker's, or a delay. *)
Lemma journal_worker_event (sk ul : bool) (all : list jsstring)
    (j : list DriverEvent) ev :
  withoutDelays j = eventsFrom W sk ul 0 all ->
  ev ∈ j -> (forall ms, ev <> Delayed ms) ->
  exists k key, all !! k = Some key /\ ev ∈ workerEvents W sk ul k key.
Proof.
  intros Hj Hev Hnot. apply elem_of_withoutDelays in Hev; [|exact Hnot].
  rewrite Hj in Hev. by apply elem_of_eventsFrom in Hev.
Qed.

Lemma countFrom_false f id (l : list jsstring) :
  (forall i key, f i key = false) -> countFrom f id l = 0.
Proof.
  intros Hf. revert id; induction l as [|key l IH]; intros id; [reflexivity|].
  simpl. by rewrite Hf, IH.
Qed.

Lemma countFrom_true f id (l : list jsstring) :
  (forall i key, f i key = true) -> countFrom f id l = Z.of_nat (length l).
Proof.
  intros Hf. revert id; induction l as [|key l IH]; intros id; [reflexivity|].
  cbn [countFrom length]. rewrite Hf, IH. simpl. lia.
Qed.

(** X19.  One worker for each listed image.  When the listing returns,
    for a positive batch size the run ends without throwing, and in its
    journal worker [id] has handled the listed image number [id], once,
    whatever the batch size: it made the probes of
    [optimizedVersionExists] if skipping is on, then it either skipped the
    image or handed it to the processing function, which copied it, or
    fetched it and stored its optimized version if it could be read and
    optimized.  There are no other workers. *)
Theorem worker_handles_its_image (options : Options) (listFuel fuel : nat)
    (all : list jsstring) :
  listAllImagesBy (send (default [] (prefix options))) listFuel
  = Some (Ok all) ->
  0 < default 10 (batchSize options) ->
  Z.of_nat (length all) < Z.of_nat fuel ->
  exists s',
    processExistingImagesBy send W options listFuel fuel = Some (Ok tt, s') /\
    (forall id key,
       all !! id = Some key ->
       eventsOfWorker id (journal s')
       = workerEvents W (default true (skipExisting options))
           (default false (useLambda options)) id key) /\
    (forall id,
       (length all <= id)%nat -> eventsOfWorker id (journal s') = []).
Proof.
  intros Hlist HB Hfuel.
  destruct (processExistingImagesBy_journal options listFuel fuel all Hlist HB
              Hfuel) as (s' & Hrun & Hj & _).
  exists s'. split; [exact Hrun|].
  assert (Hw : forall id,
            eventsOfWorker id (journal s')
            = match all !! id with
              | Some key =>
                  workerEvents W (default true (skipExisting options))
                    (default false (useLambda options)) id key
              | None => []
              end).
  { intros id.
    rewrite <- eventsOfWorker_withoutDelays, Hj, eventsOfWorker_eventsFrom.
    simpl. by rewrite Nat.sub_0_r. }
  split.
  - intros id key Hid. by rewrite Hw, Hid.
  - intros id Hid. rewrite Hw. by rewrite (proj2 (lookup_ge_None _ _) Hid).
Qed.

(** X20.  What the bulk driver stores, and where.  When the listing
    returns, for a positive batch size the run ends without throwing, and
    every store it has made is made in direct mode, by the worker of a
    listed image, which is a supported image and was not skipped: it goes
    to the optimized bucket, under the key derived from the image's key and
    the stored content type, which is [image/png] or [image/webp], with the
    one-year cache directive and the [processed-by] mark of the batch
    processor. *)
Theorem driver_stores_only_optimized (options : Options)
    (listFuel fuel : nat) (all : list jsstring) :
  listAllImagesBy (send (default [] (prefix options))) listFuel
  = Some (Ok all) ->
  0 < default 10 (batchSize options) ->
  Z.of_nat (length all) < Z.of_nat fuel ->
  exists s',
    processExistingImagesBy send W options listFuel fuel = Some (Ok tt, s') /\
    forall id command,
      Stored id command ∈ journal s' ->
      default false (useLambda options) = false /\
      exists key,
        all !! id = Some key /\
        isSupportedImage key = true /\
        skips W (default true (skipExisting options)) id key = false /\
        PutBucket command = OPTIMIZED_BUCKET W /\
        PutKey command = generateOptimizedKey key (ContentType command) /\
        (ContentType command = js "image/png" \/
         ContentType command = js "image/webp") /\
        CacheControl command = js "public, max-age=31536000" /\
        PutMetadata command !! js "processed-by" = Some (js "batch-processor").
Proof.
  intros Hlist HB Hfuel.
  destruct (processExistingImagesBy_journal options listFuel fuel all Hlist HB
              Hfuel) as (s' & Hrun & Hj & _).
  exists s'. split; [exact Hrun|]. intros id command Hin.
  destruct (journal_worker_event _ _ _ _ _ Hj Hin) as (k & key & Hk & Hev);
    [discriminate|].
  destruct (workerEvents_elem _ _ _ _ _ Hev)
    as [[E _]|[[E _]|[[E _]|[[E _]|[[E _]|[[E _]|
        (response & buf & optimized & E & Hul & Hs & _ & _ & Ho)]]]]]];
    try discriminate E.
  injection E as -> ->. split; [exact Hul|]. exists key.
  split; [exact Hk|].
  split; [eapply listAllImagesBy_supported, list_elem_of_lookup_2, Hk;
          exact Hlist|].
  split; [exact Hs|]. simpl. repeat split.
  - destruct (optimizeImage_result W buf key optimized Ho)
      as (metadata & _ & _ & _ & ->).
    unfold chosenContentType. destruct (_ && _); [by left|by right].
  - apply lookup_insert_eq.
Qed.


(** X22.  Forcing.  With [skipExisting] off (the [--force] flag), when the
    listing returns, for a positive batch size the run ends without
    throwing, it has made no fetch from the optimized bucket to look for an
    optimized version, it has skipped no image, and every listed image has
    been handed to a processing function. *)
Theorem force_probes_nothing (options : Options) (listFuel fuel : nat)
    (all : list jsstring) :
  default true (skipExisting options) = false ->
  listAllImagesBy (send (default [] (prefix options))) listFuel
  = Some (Ok all) ->
  0 < default 10 (batchSize options) ->
  Z.of_nat (length all) < Z.of_nat fuel ->
  exists s',
    processExistingImagesBy send W options listFuel fuel = Some (Ok tt, s') /\
    (forall id key, ~ Probed id key ∈ journal s') /\
    (forall id key, ~ SkippedItem id key ∈ journal s') /\
    skipped (stats s') = 0 /\
    countProcessing (journal s') = Z.of_nat (length all).
Proof.
  intros Hsk Hlist HB Hfuel.
  destruct (processExistingImagesBy_journal options listFuel fuel all Hlist HB
              Hfuel) as (s' & Hrun & Hj & _ & Hk & Hc).
  exists s'. split; [exact Hrun|]. rewrite Hsk in Hj, Hk, Hc.
  split; [|split; [|split]].
  - intros id key Hin.
    destruct (journal_worker_event _ _ _ _ _ Hj Hin) as (k & key' & _ & Hev);
      [discriminate|].
    destruct (workerEvents_elem _ _ _ _ _ Hev)
      as [[E ?]|[[E [? _]]|[[E _]|[[E _]|[[E _]|[[E _]|
          (? & ? & ? & E & _)]]]]]]; discriminate.
  - intros id key Hin.
    destruct (journal_worker_event _ _ _ _ _ Hj Hin) as (k & key' & _ & Hev);
      [discriminate|].
    destruct (workerEvents_elem _ _ _ _ _ Hev)
      as [[E _]|[[E _]|[[E ?]|[[E _]|[[E _]|[[E _]|
          (? & ? & ? & E & _)]]]]]]; discriminate.
  - by rewrite Hk, countFrom_false.
  - by rewrite Hc, countFrom_true.
Qed.

(** X25.  A rejected listing rejects the run.  When a list request is
    rejected, after any number of pages, the run is rejected with that
    error before any image is touched: no worker has been started, nothing
    has been probed, fetched, copied or stored, no delay taken, and the
    counters are all 0, the total too. *)
Theorem rejected_listing_rejects_run (options : Options)
    (listFuel fuel : nat) (pages : list ListObjectsV2Output) (e : Exn) :
  follows (send (default [] (prefix options))) 0 None pages ->
  send (default [] (prefix options)) (length pages) (lastToken None pages)
  = Throw e ->
  (length pages < listFuel)%nat ->
  processExistingImagesBy send W options listFuel fuel
  = Some (Throw e, {| stats := noStats; started := 0; journal := [] |}).
Proof.
  intros Hf Hsend Hfuel. unfold processExistingImagesBy, listAllImagesBy.
  replace listFuel
    with (length pages + S (listFuel - length pages - 1))%nat by lia.
  rewrite (listLoop_follows _ pages _ 0 None [] Hf).
  cbn [listLoop Nat.add]. by rewrite Hsend.
Qed.

(** X23.  The size totals count the images that fail.  Once
    [processImageDirect] has read an image, its length is added to
    [totalSizeBefore], whatever happens next: when the optimization
    throws, nothing is added to [totalSizeAfter] and the image is counted
    as an error; when it returns, the optimized size is added to
    [totalSizeAfter], also when the store is then rejected and the image
    is counted as an error and not as processed. *)
Theorem size_totals_count_failed_images id key s
    (response : GetObjectOutput) (originalBuffer : Buffer) :
  sendGetObject W id (SOURCE_BUCKET W) key = Ok response ->
  Body response = Some (Ok originalBuffer) ->
  exists s',
    processImageDirect W id key s = (Ok tt, s') /\
    totalSizeBefore (stats s')
    = totalSizeBefore (stats s) + len originalBuffer /\
    match optimizeImage W originalBuffer key with
    | Throw _ =>
        totalSizeAfter (stats s') = totalSizeAfter (stats s) /\
        errors (stats s') = errors (stats s) + 1 /\
        processed (stats s') = processed (stats s)
    | Ok optimized =>
        totalSizeAfter (stats s') = totalSizeAfter (stats s) + size optimized /\
        match sendPutObject W id
                (directPut W id key (GetMetadata response) originalBuffer
                   optimized) with
        | Ok _ =>
            processed (stats s') = processed (stats s) + 1 /\
            errors (stats s') = errors (stats s)
        | Throw _ =>
            errors (stats s') = errors (stats s) + 1 /\
            processed (stats s') = processed (stats s)
        end
    end.
Proof.
  intros Hget Hbody.
  unfold processImageDirect, tryCatch, bind, emit, await, updateStats, throw.
  simpl. rewrite Hget. simpl. rewrite Hbody. simpl.
  destruct (optimizeImage W originalBuffer key) as [optimized|e]; simpl.
  - destruct (sendPutObject W id _) as [[]|e]; simpl;
      (eexists; split; [reflexivity|]; by simpl).
  - eexists. split; [reflexivity|]. by simpl.
Qed.

End Journal.

Lemma handler_records_independent_photo :
  tasks (run Demo.world Demo.records [1; 0; 1]%nat) !! 1%nat
  = tasks (run Demo.world
             [ {| bucketName := js "uploads"; objectKey := js "logo.png" |};
               {| bucketName := js "uploads"; objectKey := js "my+photo.JPG" |} ]
             [1; 1]%nat) !! 1%nat.
Proof.
  exact (proj1 (handler_records_independent Demo.world Demo.records
                  [ {| bucketName := js "uploads"; objectKey := js "logo.png" |};
                    {| bucketName := js "uploads";
                       objectKey := js "my+photo.JPG" |} ]
                  [1; 0; 1]%nat [1; 1]%nat 1%nat _ eq_refl eq_refl eq_refl)).
Defined.

Lemma handler_settles_demo :
  join (run Demo.world Demo.records
          [0; 1; 2; 3; 1; 0; 1; 0; 1; 0; 2; 3; 2; 3; 2; 3]%nat) <> Pending.
Proof.
  apply (handler_settles Demo.world Demo.records).
  intros [|[|[|[|i]]]] Hi; simpl in *; lia.
Defined.

Lemma handler_record_outcome_photo :
  tasks (run Demo.world Demo.records [1; 0; 1; 1; 1]%nat) !! 1%nat
  = Some Fulfilled.
Proof.
  apply (handler_record_outcome Demo.world Demo.records [1; 0; 1; 1; 1]%nat
           1%nat _ (js "my photo.JPG") eq_refl).
  - repeat split; [vm_compute; reflexivity..|discriminate].
  - simpl. lia.
Defined.

Lemma handler_undecodable_percent :
  tasks (run Demo.world
           [{| bucketName := js "optimized"; objectKey := js "100%.png" |}]
           [0%nat]) !! 0%nat
  = Some (Rejected URIError).
Proof.
  apply (handler_undecodable Demo.world
           [{| bucketName := js "optimized"; objectKey := js "100%.png" |}]
           [0%nat] 0%nat _ eq_refl).
  reflexivity.
Defined.

Lemma handler_no_retries_photo :
  head (eventsOf 1 (trace (run Demo.world Demo.records [1; 0; 1]%nat)))
  = Some (GetSent 1 (js "uploads") (js "my photo.JPG")).
Proof.
  apply (handler_no_retries Demo.world Demo.records [1; 0; 1]%nat 1%nat _
           (js "my photo.JPG") eq_refl).
  repeat split; [vm_compute; reflexivity..|discriminate].
Defined.

Lemma handler_stores_only_optimized_photo :
  exists command,
    PutSent 1 command ∈ trace (run Demo.world Demo.records [1; 1; 1]%nat) /\
    PutBucket command = js "optimized" /\
    CacheControl command = js "public, max-age=31536000".
Proof.
  assert (H : exists command,
            last (trace (run Demo.world Demo.records [1; 1; 1]%nat))
            = Some (PutSent 1 command)).
  { vm_compute. eexists. reflexivity. }
  destruct H as [command Hlast]. exists command.
  apply last_Some_elem_of in Hlast. split; [exact Hlast|].
  destruct (handler_stores_only_optimized Demo.world Demo.records
              [1; 1; 1]%nat 1%nat command Hlast)
    as (r & key & _ & _ & Hb & _ & _ & Hc).
  split; [exact Hb|exact Hc].
Defined.

Lemma listAllImagesBy_pages_two :
  listAllImagesBy DemoListing.send 5 = Some (Ok [js "a.jpg"; js "logo.png"]).
Proof.
  apply (listAllImagesBy_pages DemoListing.send [DemoListing.firstPage]
           DemoListing.lastPage 5).
  - by repeat split.
  - reflexivity.
  - reflexivity.
  - simpl. lia.
Defined.

Lemma listAllImagesBy_rejected_second :
  listAllImagesBy DemoListing.broken 5 = Some (Throw (External 503)).
Proof.
  apply (listAllImagesBy_rejected DemoListing.broken [DemoListing.firstPage]
           (External 503) 5).
  - by repeat split.
  - reflexivity.
  - simpl. lia.
Defined.

Lemma worker_handles_its_image_demo :
  exists s',
    processExistingImagesBy DemoListing.sendFor Demo.world quickProcessOptions
      5 5 = Some (Ok tt, s') /\
    head (eventsOfWorker 1 (journal s')) = Some (Probed 1 (js "logo.webp")).
Proof.
  destruct (worker_handles_its_image Demo.world DemoListing.sendFor
              quickProcessOptions 5 5 [js "a.jpg"; js "logo.png"] eq_refl
              eq_refl eq_refl) as (s' & E & Hw & _).
  exists s'. split; [exact E|].
  by rewrite (Hw 1%nat (js "logo.png") eq_refl).
Defined.

Lemma driver_stores_only_optimized_demo :
  exists s',
    processExistingImagesBy DemoListing.sendFor Demo.world quickProcessOptions
      5 5 = Some (Ok tt, s') /\
    forall id command,
      Stored id command ∈ journal s' -> PutBucket command = js "optimized".
Proof.
  destruct (driver_stores_only_optimized Demo.world DemoListing.sendFor
              quickProcessOptions 5 5 [js "a.jpg"; js "logo.png"] eq_refl
              eq_refl eq_refl) as (s' & E & H).
  exists s'. split; [exact E|]. intros id command Hin.
  destruct (H id command Hin) as (_ & key & _ & _ & _ & Hb & _).
  exact Hb.
Defined.


Lemma force_probes_nothing_demo :
  exists s',
    processExistingImagesBy DemoListing.sendFor Demo.world
      {| prefix := None; skipExisting := Some false; useLambda := None;
         batchSize := Some 3; delayBetweenBatches := None |} 5 5
    = Some (Ok tt, s') /\
    skipped (stats s') = 0 /\ countProcessing (journal s') = 2.
Proof.
  destruct (force_probes_nothing Demo.world DemoListing.sendFor
              {| prefix := None; skipExisting := Some false; useLambda := None;
                 batchSize := Some 3; delayBetweenBatches := None |} 5 5
              [js "a.jpg"; js "logo.png"] eq_refl eq_refl eq_refl eq_refl)
    as (s' & E & _ & _ & Hk & Hc).
  exists s'. split; [exact E|]. split; [exact Hk|exact Hc].
Defined.

Lemma rejected_listing_rejects_run_demo :
  processExistingImagesBy DemoListing.brokenFor Demo.world quickProcessOptions
    5 5
  = Some (Throw (External 503),
          {| stats := noStats; started := 0; journal := [] |}).
Proof.
  apply (rejected_listing_rejects_run Demo.world DemoListing.brokenFor
           quickProcessOptions 5 5 [DemoListing.firstPage] (External 503)).
  - by repeat split.
  - reflexivity.
  - simpl. lia.
Defined.

Lemma size_totals_count_failed_images_demo :
  exists s',
    processImageDirect Demo.world 0 (js "a.jpg")
      {| stats := noStats; started := 1; journal := [] |} = (Ok tt, s') /\
    totalSizeBefore (stats s') = 8.
Proof.
  destruct (size_totals_count_failed_images Demo.world 0%nat (js "a.jpg")
              {| stats := noStats; started := 1; journal := [] |}
              _ _ eq_refl eq_refl) as (s' & E & Hb & _).
  exists s'. split; [exact E|exact Hb].
Defined.

(** ** Where the delays are *)

Section Pauses.

Variable W : World.

Implicit Types (s : RunState) (key : jsstring) (id : nat).

Lemma eventsFrom_notDelay (sk ul : bool) id (l : list jsstring) :
  Forall notDelay (eventsFrom W sk ul id l).
Proof.
  apply Forall_forall. intros ev Hev ms ->.
  apply elem_of_eventsFrom in Hev as (k & key & _ & Hev).
  apply workerEvents_worker in Hev. discriminate.
Qed.

(** The loop over the batches, batch by batch: a run that has ended has
    added to the journal what the workers of each batch did, batch after
    batch, and one delay between two batches. *)
Lemma batchLoop_segments (sk ul : bool) (B D : Z) (all : list jsstring) :
  0 < B -> 0 < D ->
  forall (fuel k : nat) s r s',
    Z.of_nat (started s) = Z.min (Z.of_nat k * B) (Z.of_nat (length all)) ->
    batchLoop W sk ul B D all fuel (Z.of_nat k * B) s = Some (r, s') ->
    exists segments,
      journal s' = journal s ++ pauses D segments /\
      Z.of_nat (length segments)
      = (if Z.of_nat k * B <? Z.of_nat (length all)
         then (Z.of_nat (length all) - Z.of_nat k * B - 1) / B + 1 else 0) /\
      forall j segment,
        segments !! j = Some segment ->
        segment = eventsFrom W sk ul ((k + j) * Z.to_nat B)
                    (batchAt B all (k + j)).
Proof.
  intros HB HD. induction fuel as [|fuel IH]; intros k s r s' Hst Hrun;
    [discriminate|].
  cbn [batchLoop] in Hrun.
  destruct (Z.ltb_spec (Z.of_nat k * B) (Z.of_nat (length all))) as [Hlt|Hge].
  - fold (batchAt B all k) in Hrun.
    assert (Hlen : Z.of_nat (length (batchAt B all k))
                   = Z.min B (Z.of_nat (length all) - Z.of_nat k * B)).
    { unfold batchAt. rewrite slice_window by lia.
      rewrite length_take, length_drop. lia. }
    unfold bind in Hrun.
    destruct (processBatch_journal W sk ul (batchAt B all k) s)
      as (s1 & E1 & Hst1 & Hj1 & _).
    rewrite E1 in Hrun.
    assert (Hid : started s = (k * Z.to_nat B)%nat) by nia.
    replace (0 <? D) with true in Hrun by (symmetry; by apply Z.ltb_lt).
    rewrite andb_true_r in Hrun.
    replace (Z.of_nat k * B + B) with (Z.of_nat (S k) * B) in Hrun by lia.
    destruct (Z.ltb_spec (Z.of_nat (S k) * B) (Z.of_nat (length all)))
      as [Hmore|Hlast].
    + unfold emit in Hrun.
      match type of Hrun with
      | batchLoop _ _ _ _ _ _ _ _ ?s2 = _ =>
          destruct (IH (S k) s2 r s') as (segments & Hj & Hn & Hseg);
            [simpl; lia|exact Hrun|]
      end.
      simpl in Hj.
      destruct (Z.ltb_spec (Z.of_nat (S k) * B) (Z.of_nat (length all)));
        [|lia].
      destruct segments as [|next rest].
      { simpl in Hn.
        pose proof (Z.div_pos (Z.of_nat (length all) - Z.of_nat (S k) * B - 1)
                      B). lia. }
      exists (eventsFrom W sk ul (started s) (batchAt B all k) :: next :: rest).
      split; [|split].
      * rewrite Hj, Hj1. cbn [pauses]. by rewrite <- !app_assoc.
      * cbn [length] in *. rewrite Nat2Z.inj_succ, Hn.
        replace (Z.of_nat (length all) - Z.of_nat k * B - 1)
          with (Z.of_nat (length all) - Z.of_nat (S k) * B - 1 + 1 * B) by lia.
        rewrite Z.div_add by lia. lia.
      * intros [|j] segment Hlook.
        -- injection Hlook as <-. by rewrite Nat.add_0_r, Hid.
        -- replace (k + S j)%nat with (S k + j)%nat by lia.
           by apply Hseg.
    + destruct (IH (S k) s1 r s') as (segments & Hj & Hn & Hseg);
        [lia|exact Hrun|].
      destruct (Z.ltb_spec (Z.of_nat (S k) * B) (Z.of_nat (length all)));
        [lia|].
      destruct segments as [|next rest]; [|simpl in Hn; lia].
      exists [eventsFrom W sk ul (started s) (batchAt B all k)].
      split; [|split].
      * rewrite Hj, Hj1. simpl. by rewrite !app_nil_r.
      * rewrite Z.div_small by lia. reflexivity.
      * intros [|j] segment Hlook; [|by destruct j].
        injection Hlook as <-. by rewrite Nat.add_0_r, Hid.
  - injection Hrun as _ <-. exists []. simpl. rewrite app_nil_r.
    repeat split. intros j segment Hlook. by destruct j.
Qed.

(** C5, as amended.  For a positive batch size [B] and [L] listed images,
    the run ends without throwing and has taken [ceil(L / B) - 1] delays
    when the configured delay is positive and [L] is at least 1, and none
    when the delay is 0 or negative or when nothing is listed; a delay is
    never the last thing the run does, so none follows the final batch.
    With a positive delay the journal of the run is made of [ceil(L / B)]
    segments, one for each batch in order, with one delay, of the
    configured length, after each segment but the last: segment [k] holds
    no delay and is what the workers of batch [k] did, so there is one
    delay after every batch except the final one, none before the first
    batch and none after the final one. *)
Theorem delays_between_batches (options : Options) (fuel : nat) :
  0 < default 10 (batchSize options) ->
  Z.of_nat (length (listAllImages W (default [] (prefix options))))
  < Z.of_nat fuel ->
  exists s',
    processExistingImages W options fuel = Some (Ok tt, s') /\
    countDelays (journal s')
    = (if (0 <? default 1000 (delayBetweenBatches options))
         && (0 <? Z.of_nat (length (listAllImages W
                                      (default [] (prefix options)))))
      then ceilDiv
             (Z.of_nat (length (listAllImages W (default [] (prefix options)))))
             (default 10 (batchSize options)) - 1
      else 0) /\
    (forall ms, last (journal s') <> Some (Delayed ms)) /\
    (0 < default 1000 (delayBetweenBatches options) ->
     exists segments,
       journal s'
       = pauses (default 1000 (delayBetweenBatches options)) segments /\
       Z.of_nat (length segments)
       = ceilDiv
           (Z.of_nat (length (listAllImages W (default [] (prefix options)))))
           (default 10 (batchSize options)) /\
       forall k segment,
         segments !! k = Some segment ->
         Forall notDelay segment /\
         segment
           ≡ₚ eventsFrom W (default true (skipExisting options))
                (default false (useLambda options))
                (k * Z.to_nat (default 10 (batchSize options)))
                (batchAt (default 10 (batchSize options))
                   (listAllImages W (default [] (prefix options))) k)).
Proof.
  intros HB Hfuel.
  destruct (processExistingImages_run W options fuel HB Hfuel)
    as (s' & E & _ & _ & _ & _ & _ & _ & Hd & Hl).
  exists s'. split; [exact E|]. split; [by rewrite Hd, delaysFrom_start|].
  split; [exact Hl|]. intros HD.
  unfold processExistingImages in E.
  set (all := listAllImages W (default [] (prefix options))) in *.
  assert (Hst : Z.of_nat 0
                = Z.min (Z.of_nat 0 * default 10 (batchSize options))
                    (Z.of_nat (length all))) by (simpl; lia).
  destruct (batchLoop_segments _ _ _ _ all HB HD fuel 0%nat
              {| stats := setTotal (Z.of_nat (length all)) noStats;
                 started := 0; journal := [] |} (Ok tt) s' Hst E)
    as (segments & Hj & Hn & Hseg).
  exists segments. split; [exact Hj|]. split.
  - rewrite Hn. change (Z.of_nat 0 * default 10 (batchSize options)) with 0.
    destruct (Z.ltb_spec 0 (Z.of_nat (length all))).
    + rewrite Z.sub_0_r, ceilDiv_pred by exact HB. lia.
    + replace (Z.of_nat (length all)) with 0 by lia. reflexivity.
  - intros k segment Hk. rewrite (Hseg k segment Hk). simpl.
    split; [apply eventsFrom_notDelay|reflexivity].
Qed.

End Pauses.

Lemma delays_between_batches_demo :
  exists s' segments,
    processExistingImages Demo.world
      {| prefix := None; skipExisting := None; useLambda := None;
         batchSize := Some 1; delayBetweenBatches := None |} 5
    = Some (Ok tt, s') /\
    countDelays (journal s') = 3 /\
    journal s' = pauses 1000 segments /\
    Z.of_nat (length segments) = 4.
Proof.
  destruct (delays_between_batches Demo.world
              {| prefix := None; skipExisting := None; useLambda := None;
                 batchSize := Some 1; delayBetweenBatches := None |} 5
              eq_refl eq_refl) as (s' & E & Hd & _ & Hseg).
  destruct (Hseg eq_refl) as (segments & Hj & Hn & _).
  exists s', segments. split; [exact E|]. split; [exact Hd|].
  split; [exact Hj|exact Hn].
Defined.
